(** * The database seeder of the builder-pattern exercise

    A shallow embedding of [src/exercises/09-databaseSeeder.code.ts]
    (class [DbSeeder], its three arrow-function fields [addUser],
    [addPost] and [transact], and the [usage] chain), together with the
    part of the JavaScript object model those few lines exercise:
    a heap of objects with own properties and a prototype slot, property
    reads and assignments that walk the prototype chain, and the
    [__proto__] accessor of [Object.prototype].

    Objects live in a shared heap and are passed around by reference, as
    in the running program: the builder returns [this], and the value
    returned by [transact] holds references to the builder's collections.

    The smaller functions of the other exercises follow, on the same
    object model where they work on objects: [removeMapsPrefixFromObj]
    ([src/exercises/08-removeMapsFromObj.code.ts]), the two versions of
    [createComponent], [canUserAccess]
    ([src/exercises/02-roleBasedAccess.code.ts]) and [onSubmit]
    ([src/exercises/04-isValidEmail.code.ts]). *)

From stdpp Require Import gmap strings list fin_maps.
From Stdlib Require Import Permutation.

Set Warnings "-register-all".

Open Scope string_scope.
Open Scope list_scope.

(** ** Errors and the error monad *)

Inductive error :=
  | TypeError      (* the JavaScript exception *)
  | OutOfFuel      (* a prototype chain longer than the heap: a cycle *)
  | Unmodelled.    (* behaviour outside the fragment described here *)

Inductive result (A : Type) :=
  | Ok (a : A)
  | Err (e : error).
Arguments Ok {A} a.
Arguments Err {A} e.

#[global] Instance result_ret : MRet result := λ A a, Ok a.
#[global] Instance result_bind : MBind result := λ A B k r,
  match r with
  | Ok a => k a
  | Err e => Err e
  end.

#[global] Instance result_fmap : FMap result := λ A B f r,
  match r with
  | Ok a => Ok (f a)
  | Err e => Err e
  end.

(** ** Object model *)

Module JS.

(** Locations are indices into the heap. *)
Abbreviation loc := nat.

(** A reference designates either an object of the mutable heap or one
    of the built-in objects, which the program never changes. *)
Inductive ref :=
  | Loc (l : loc)
  | Intrinsic (name : string).

Inductive value :=
  | VUndefined
  | VNull
  | VString (s : string)
  | VObject (r : ref).

(** The functions of the program are the three arrow functions that
    the class body stores in every instance.  An arrow function closes
    over the [this] of the constructor call that created it. *)
Inductive method := MAddUser | MAddPost | MTransact.

(** An ordinary object: own data properties (writable, enumerable and
    configurable, the only kind the program creates), the
    [[Prototype]] slot ([None] is [null]) and, for a function object,
    its code with the captured [this]. *)
Record object := Obj {
  own : gmap string value;
  prototype : option ref;
  code : option (method * loc)
}.

Abbreviation heap := (list object).

#[global] Instance ref_eq_dec : EqDecision ref.
Proof. solve_decision. Defined.
#[global] Instance value_eq_dec : EqDecision value.
Proof. solve_decision. Defined.
#[global] Instance method_eq_dec : EqDecision method.
Proof. solve_decision. Defined.

Definition object_prototype : ref := Intrinsic "%Object.prototype%".
Definition function_prototype : ref := Intrinsic "%Function.prototype%".

(** Own property names of [Object.prototype] that hold functions.
    They are writable data properties; [__proto__] is the one
    accessor. *)
Definition object_prototype_members : list string :=
  [ "constructor"; "hasOwnProperty"; "isPrototypeOf";
    "propertyIsEnumerable"; "toLocaleString"; "toString"; "valueOf";
    "__defineGetter__"; "__defineSetter__";
    "__lookupGetter__"; "__lookupSetter__" ].

(** Allocation never reuses a location: a new object is appended. *)
Definition alloc (h : heap) (o : object) : loc * heap :=
  (length h, h ++ [o]).

(** An object literal [{ k1: v1, ... }]. *)
Definition literal (props : gmap string value) : object :=
  Obj props (Some object_prototype) None.

(** A function object for an arrow function. *)
Definition closure (m : method) (this : loc) : object :=
  Obj ∅ (Some function_prototype) (Some (m, this)).

(** CreateDataProperty on an extensible ordinary object: the own
    property is created, or replaced when it exists. *)
Definition define_own (h : heap) (l : loc) (k : string) (v : value)
    : result heap :=
  match h !! l with
  | Some o => Ok (<[l := Obj (<[k := v]> (own o)) (prototype o) (code o)]> h)
  | None => Err Unmodelled
  end.

(** [[GetPrototypeOf]] as a value. *)
Definition prototype_value (p : option ref) : value :=
  match p with
  | Some r => VObject r
  | None => VNull
  end.

Definition get_prototype_of (h : heap) (r : ref) : result value :=
  match r with
  | Loc l =>
      match h !! l with
      | Some o => Ok (prototype_value (prototype o))
      | None => Err Unmodelled
      end
  | Intrinsic n =>
      if decide (n = "%Object.prototype%") then Ok VNull
      else Err Unmodelled
  end.

(** The property [k] as found on [Object.prototype] itself, read on
    behalf of [receiver]: the [__proto__] getter answers with the
    receiver's prototype. *)
Definition object_prototype_get (h : heap) (k : string) (receiver : ref)
    : result value :=
  if decide (k = "__proto__") then get_prototype_of h receiver
  else if decide (k ∈ object_prototype_members)
  then Ok (VObject (Intrinsic ("%Object.prototype." +:+ k +:+ "%")))
  else Ok VUndefined.

(** OrdinaryGet: look for an own property, else continue with the
    prototype.  The properties of intrinsic objects other than
    [Object.prototype] are not described. *)
Fixpoint get_walk (fuel : nat) (h : heap) (cur : option ref) (k : string)
    (receiver : ref) : result value :=
  match cur with
  | None => Ok VUndefined
  | Some (Intrinsic n) =>
      if decide (n = "%Object.prototype%")
      then object_prototype_get h k receiver
      else Err Unmodelled
  | Some (Loc l) =>
      match h !! l with
      | None => Err Unmodelled
      | Some o =>
          match own o !! k with
          | Some v => Ok v
          | None =>
              match fuel with
              | O => Err OutOfFuel
              | S fuel' => get_walk fuel' h (prototype o) k receiver
              end
          end
      end
  end.

(** The member expression [base[k]] used as a value. *)
Definition get_prop (h : heap) (base : value) (k : string) : result value :=
  match base with
  | VObject r => get_walk (S (length h)) h (Some r) k r
  | VUndefined | VNull => Err TypeError
  | VString _ => Err Unmodelled
  end.

(** The loop of OrdinarySetPrototypeOf: does the chain that starts at
    [p] pass through [target]?  Intrinsic objects never lead back into
    the heap. *)
Fixpoint reaches (fuel : nat) (h : heap) (p : option ref) (target : loc)
    : result bool :=
  match p with
  | None | Some (Intrinsic _) => Ok false
  | Some (Loc l) =>
      if decide (l = target) then Ok true
      else match h !! l with
           | None => Err Unmodelled
           | Some o =>
               match fuel with
               | O => Err OutOfFuel
               | S fuel' => reaches fuel' h (prototype o) target
               end
           end
  end.

(** The [__proto__] setter of [Object.prototype], called on
    [receiver] with [v]: a value that is neither an object nor [null]
    is ignored; otherwise the receiver's prototype is replaced, and a
    cycle is a TypeError. *)
Definition set_prototype_of (h : heap) (receiver : loc) (p : option ref)
    : result heap :=
  match h !! receiver with
  | None => Err Unmodelled
  | Some o =>
      if decide (prototype o = p) then Ok h
      else
        cyclic ← reaches (length h) h p receiver;
        if (cyclic : bool) then Err TypeError
        else Ok (<[receiver := Obj (own o) p (code o)]> h)
  end.

Definition object_prototype_proto_setter (h : heap) (receiver : loc)
    (v : value) : result heap :=
  match v with
  | VObject r => set_prototype_of h receiver (Some r)
  | VNull => set_prototype_of h receiver None
  | VUndefined | VString _ => Ok h
  end.

(** OrdinarySet: an own or inherited data property leads to a data
    property on the receiver; the inherited [__proto__] accessor leads
    to its setter; a property found nowhere is created on the
    receiver. *)
Fixpoint set_walk (fuel : nat) (h : heap) (cur : option ref) (k : string)
    (v : value) (receiver : loc) : result heap :=
  match cur with
  | None => define_own h receiver k v
  | Some (Intrinsic n) =>
      if decide (n = "%Object.prototype%")
      then if decide (k = "__proto__")
           then object_prototype_proto_setter h receiver v
           else define_own h receiver k v
      else Err Unmodelled
  | Some (Loc l) =>
      match h !! l with
      | None => Err Unmodelled
      | Some o =>
          match own o !! k with
          | Some _ => define_own h receiver k v
          | None =>
              match fuel with
              | O => Err OutOfFuel
              | S fuel' => set_walk fuel' h (prototype o) k v receiver
              end
          end
      end
  end.

(** The assignment [base[k] = v] in strict code. *)
Definition set_prop (h : heap) (base : value) (k : string) (v : value)
    : result heap :=
  match base with
  | VObject (Loc l) => set_walk (S (length h)) h (Some (Loc l)) k v l
  | VObject (Intrinsic _) => Err Unmodelled
  | VUndefined | VNull | VString _ => Err TypeError
  end.

End JS.

(** ** The seeder *)

Module DbSeeder.
Import JS.

(** [interface User] and [interface Post]. *)
Module User.
Record t := { id : string; name : string }.
End User.

Module Post.
Record t := { id : string; title : string; authorId : string }.
End Post.

(** [Omit<User, "id">] and [Omit<Post, "id">], the types of the data
    arguments: an argument is an object with exactly the declared
    fields, each a string. *)
Record UserData := { name : string }.
Record PostData := { title : string; authorId : string }.

(** The own enumerable properties that a spread [...user] or [...post]
    copies, as data properties, into the literal under construction. *)
Definition spread_user (user : UserData) : gmap string value :=
  {[ "name" := VString (name user) ]}.

Definition spread_post (post : PostData) : gmap string value :=
  <[ "authorId" := VString (authorId post) ]>
    {[ "title" := VString (title post) ]}.

(** [new DbSeeder()]: the instance is created, then the field
    initialisers run in the order of the class body.  Every field is
    an own property of the instance; the three functions are arrow
    functions, so each instance gets its own three function objects,
    bound to it. *)
Definition new_DbSeeder (h : heap) : result (value * heap) :=
  let '(this, h) := alloc h (Obj ∅ (Some (Intrinsic "DbSeeder.prototype")) None) in
  let '(users, h) := alloc h (literal ∅) in
  h ← define_own h this "users" (VObject (Loc users));
  let '(posts, h) := alloc h (literal ∅) in
  h ← define_own h this "posts" (VObject (Loc posts));
  let '(f, h) := alloc h (closure MAddUser this) in
  h ← define_own h this "addUser" (VObject (Loc f));
  let '(f, h) := alloc h (closure MAddPost this) in
  h ← define_own h this "addPost" (VObject (Loc f));
  let '(f, h) := alloc h (closure MTransact this) in
  h ← define_own h this "transact" (VObject (Loc f));
  Ok (VObject (Loc this), h).

(** [this.users[id] = { ...user, id: id }; return this;] *)
Definition addUser (this : loc) (id : string) (user : UserData) (h : heap)
    : result (value * heap) :=
  users ← get_prop h (VObject (Loc this)) "users";
  let '(r, h) := alloc h (literal (<[ "id" := VString id ]> (spread_user user))) in
  h ← set_prop h users id (VObject (Loc r));
  Ok (VObject (Loc this), h).

(** [this.posts[id] = { ...post, id }; return this;] *)
Definition addPost (this : loc) (id : string) (post : PostData) (h : heap)
    : result (value * heap) :=
  posts ← get_prop h (VObject (Loc this)) "posts";
  let '(r, h) := alloc h (literal (<[ "id" := VString id ]> (spread_post post))) in
  h ← set_prop h posts id (VObject (Loc r));
  Ok (VObject (Loc this), h).

(** [return { users: this.users, posts: this.posts };]  The function
    is [async] and its body has no [await]: the body runs to its end
    when the function is called, and the promise it returns is
    fulfilled with the object built here, which is what [await]
    hands to the caller.  The casts are erased. *)
Definition transact (this : loc) (h : heap) : result (value * heap) :=
  users ← get_prop h (VObject (Loc this)) "users";
  posts ← get_prop h (VObject (Loc this)) "posts";
  let '(s, h) := alloc h (literal (<[ "posts" := posts ]> {[ "users" := users ]})) in
  Ok (VObject (Loc s), h).

(** *** Method calls *)

(** A chainable call with its arguments. *)
Inductive call :=
  | AddUser (id : string) (user : UserData)
  | AddPost (id : string) (post : PostData).

#[global] Instance UserData_eq_dec : EqDecision UserData.
Proof. solve_decision. Defined.
#[global] Instance PostData_eq_dec : EqDecision PostData.
Proof. solve_decision. Defined.
#[global] Instance call_eq_dec : EqDecision call.
Proof. solve_decision. Defined.

Definition method_name (c : call) : string :=
  match c with
  | AddUser _ _ => "addUser"
  | AddPost _ _ => "addPost"
  end.

(** The function object behind a value, if it is one. *)
Definition function_of (h : heap) (f : value) : result (method * loc) :=
  match f with
  | VObject (Loc l) =>
      match h !! l with
      | Some o =>
          match code o with
          | Some c => Ok c
          | None => Err TypeError
          end
      | None => Err Unmodelled
      end
  | VObject (Intrinsic _) => Err Unmodelled
  | VUndefined | VNull | VString _ => Err TypeError
  end.

(** The body of the function [m], run with its captured [this] on the
    arguments of [c]. *)
Definition run_method (m : method) (this : loc) (c : call) (h : heap)
    : result (value * heap) :=
  match m, c with
  | MAddUser, AddUser id user => addUser this id user h
  | MAddPost, AddPost id post => addPost this id post h
  | _, _ => Err Unmodelled
  end.

(** [recv.addUser(id, user)] and [recv.addPost(id, post)]: the
    function is read from the receiver and called; being an arrow
    function it runs with the [this] it was created with. *)
Definition invoke (recv : value) (c : call) (h : heap)
    : result (value * heap) :=
  f ← get_prop h recv (method_name c);
  '(m, this) ← function_of h f;
  run_method m this c h.

(** [await recv.transact()] *)
Definition invoke_transact (recv : value) (h : heap)
    : result (value * heap) :=
  f ← get_prop h recv "transact";
  '(m, this) ← function_of h f;
  match m with
  | MTransact => transact this h
  | _ => Err Unmodelled
  end.

(** [recv.c1(...).c2(...). ... .cn(...)]: each call is made on the
    value returned by the call before it. *)
Fixpoint chain (recv : value) (cs : list call) (h : heap)
    : result (value * heap) :=
  match cs with
  | [] => Ok (recv, h)
  | c :: cs =>
      '(recv', h') ← invoke recv c h;
      chain recv' cs h'
  end.

(** The same calls made one statement at a time on one saved handle:
    [b.c1(...); b.c2(...); ...]. *)
Fixpoint statements (b : value) (cs : list call) (h : heap)
    : result heap :=
  match cs with
  | [] => Ok h
  | c :: cs =>
      '(_, h') ← invoke b c h;
      statements b cs h'
  end.

(** [await b.transact()] made [n] times in a row on a builder that
    is left alone in between; the results, oldest first. *)
Fixpoint transacts (n : nat) (b : value) (h : heap)
    : result (list value * heap) :=
  match n with
  | O => Ok ([], h)
  | S n' =>
      '(s, h') ← invoke_transact b h;
      '(ss, h'') ← transacts n' b h';
      Ok (s :: ss, h'')
  end.

(** [new DbSeeder().c1(...). ... .cn(...).transact()], awaited. *)
Definition seed (cs : list call) (h : heap) : result (value * heap) :=
  '(b, h) ← new_DbSeeder h;
  '(b, h) ← chain b cs h;
  invoke_transact b h.

(** The body of [usage]; the local [result] is handed back so that it
    can be looked at. *)
Definition usage (h : heap) : result (value * heap) :=
  '(b, h) ← new_DbSeeder h;
  '(b, h) ← invoke b (AddUser "matt" {| name := "Matt" |}) h;
  '(b, h) ← invoke b (AddPost "post1" {| authorId := "matt"; title := "Post 2" |}) h;
  '(b, h) ← invoke b (AddPost "post2" {| authorId := "matt"; title := "Post" |}) h;
  '(result, h) ← invoke_transact b h;
  posts ← get_prop h result "posts";
  _ ← get_prop h posts "post2";
  Ok (result, h).

(** *** Observation *)

(** What a deep comparison sees of a value: the own properties of
    objects, recursively, down to a depth. *)
Inductive tree :=
  | TUndefined
  | TNull
  | TString (s : string)
  | TObject (props : gmap string tree)
  | TFunction
  | TOpaque.

Fixpoint deep (n : nat) (h : heap) (v : value) : tree :=
  match v with
  | VUndefined => TUndefined
  | VNull => TNull
  | VString s => TString s
  | VObject (Intrinsic _) => TOpaque
  | VObject (Loc l) =>
      match n with
      | O => TOpaque
      | S n' =>
          match h !! l with
          | Some o =>
              match code o with
              | Some _ => TFunction
              | None => TObject (deep n' h <$> own o)
              end
          | None => TOpaque
          end
      end
  end.

(** [v[k1][k2]] *)
Definition get_path (h : heap) (v : value) (k1 k2 : string) : result value :=
  o ← get_prop h v k1;
  get_prop h o k2.

End DbSeeder.

(** ** What the calls denote *)

Module Model.
Import JS DbSeeder.

(** The collection a call writes to, the key it writes, and the
    record [{ ...data, id }] that the specification expects under that
    key, written out field by field. *)
Definition category (c : call) : string :=
  match c with
  | AddUser _ _ => "users"
  | AddPost _ _ => "posts"
  end.

Definition key (c : call) : string :=
  match c with
  | AddUser id _ => id
  | AddPost id _ => id
  end.

Definition user_object (u : User.t) : gmap string string :=
  {[ "id" := User.id u; "name" := User.name u ]}.

Definition post_object (p : Post.t) : gmap string string :=
  {[ "id" := Post.id p; "title" := Post.title p; "authorId" := Post.authorId p ]}.

Definition user_fields (id : string) (user : UserData) : gmap string string :=
  user_object {| User.id := id; User.name := name user |}.

Definition post_fields (id : string) (post : PostData) : gmap string string :=
  post_object {| Post.id := id; Post.title := title post;
                 Post.authorId := authorId post |}.

Definition expected (c : call) : gmap string string :=
  match c with
  | AddUser id user => user_fields id user
  | AddPost id post => post_fields id post
  end.

(** A record as a deep comparison sees it. *)
Definition record_tree (f : gmap string string) : tree :=
  TObject (TString <$> f).

Definition is_user (c : call) : bool :=
  match c with AddUser _ _ => true | AddPost _ _ => false end.

Definition is_post (c : call) : bool :=
  match c with AddUser _ _ => false | AddPost _ _ => true end.

(** The entry a call writes: a collection and a key in it. *)
Definition entry (c : call) : string * string := (category c, key c).

(** Two calls that write the same key of the same collection. *)
Definition same_entry (c1 c2 : call) : Prop := entry c1 = entry c2.

#[global] Instance same_entry_dec c1 c2 : Decision (same_entry c1 c2).
Proof. unfold same_entry. apply _. Defined.

(** The collection a call does not write to. *)
Definition other_category (c : call) : string :=
  match c with
  | AddUser _ _ => "posts"
  | AddPost _ _ => "users"
  end.

(** The contents of the two collections as finite maps from keys to
    records.  The key [__proto__] is special on the heap (the
    assignment goes to the prototype slot), not here. *)
Record db := Db {
  users : gmap string (gmap string string);
  posts : gmap string (gmap string string)
}.

Definition empty_db : db := Db ∅ ∅.

Definition step (a : db) (c : call) : db :=
  match c with
  | AddUser id user => Db (<[id := user_fields id user]> (users a)) (posts a)
  | AddPost id post => Db (users a) (<[id := post_fields id post]> (posts a))
  end.

Definition steps (a : db) (cs : list call) : db := foldl step a cs.

(** The collection a call writes to. *)
Definition select (c : call) (a : db) : gmap string (gmap string string) :=
  match c with
  | AddUser _ _ => users a
  | AddPost _ _ => posts a
  end.

(** The collection a call leaves alone. *)
Definition select_other (c : call) (a : db) : gmap string (gmap string string) :=
  match c with
  | AddUser _ _ => posts a
  | AddPost _ _ => users a
  end.

(** What a deep comparison sees of a collection: its own properties. *)
Definition collection_tree (m : gmap string (gmap string string)) : tree :=
  TObject (record_tree <$> delete "__proto__" m).

Definition snapshot_tree (a : db) : tree :=
  TObject {[ "users" := collection_tree (users a);
             "posts" := collection_tree (posts a) ]}.

(** What reading the property [k] of a collection yields, seen to
    depth one. *)
Definition read (m : gmap string (gmap string string)) (k : string) : tree :=
  match m !! k with
  | Some f => record_tree f
  | None =>
      if decide (k = "__proto__") then TOpaque
      else match m !! "__proto__" ≫= (.!! k) with
           | Some s => TString s
           | None =>
               if decide (k ∈ object_prototype_members) then TOpaque
               else TUndefined
           end
  end.

(** *** Representation on the heap *)

(** The object at [r] is a record stored for the key [k]. *)
Definition record_at (h : heap) (r : loc) (k : string)
    (f : gmap string string) : Prop :=
  h !! r = Some (literal (VString <$> f)) ∧
  f !! "id" = Some k ∧
  f !! "__proto__" = None.

(** The object at [l] is a collection with contents [m]: the entries
    are own properties, except the entry for [__proto__], which sits
    in the prototype slot. *)
Definition collection_at (h : heap) (l : loc)
    (m : gmap string (gmap string string)) : Prop :=
  ∃ o, h !! l = Some o ∧ code o = None ∧
    own o !! "__proto__" = None ∧
    (∀ k, k ≠ "__proto__" →
       match own o !! k with
       | Some v => ∃ r f, v = VObject (Loc r) ∧ record_at h r k f ∧ m !! k = Some f
       | None => m !! k = None
       end) ∧
    match prototype o with
    | Some (Loc r) => ∃ f, record_at h r "__proto__" f ∧ m !! "__proto__" = Some f
    | Some (Intrinsic n) => n = "%Object.prototype%" ∧ m !! "__proto__" = None
    | None => False
    end.

(** The places of a builder: the instance, its two collections and
    its three functions. *)
Record places := Places {
  p_this : loc;
  p_users : loc;
  p_posts : loc;
  p_addUser : loc;
  p_addPost : loc;
  p_transact : loc
}.

Definition has_function (h : heap) (ob : object) (k : string)
    (f : loc) (m : method) (this : loc) : Prop :=
  own ob !! k = Some (VObject (Loc f)) ∧ h !! f = Some (closure m this).

(** The heap holds a builder at [p] whose accumulated state is [a]. *)
Definition seeder_at (h : heap) (p : places) (a : db) : Prop :=
  ∃ ob, h !! p_this p = Some ob ∧
    own ob !! "users" = Some (VObject (Loc (p_users p))) ∧
    own ob !! "posts" = Some (VObject (Loc (p_posts p))) ∧
    has_function h ob "addUser" (p_addUser p) MAddUser (p_this p) ∧
    has_function h ob "addPost" (p_addPost p) MAddPost (p_this p) ∧
    has_function h ob "transact" (p_transact p) MTransact (p_this p) ∧
    p_this p ≠ p_users p ∧ p_this p ≠ p_posts p ∧ p_users p ≠ p_posts p ∧
    collection_at h (p_users p) (users a) ∧
    collection_at h (p_posts p) (posts a).

(** [h'] keeps every object of [h] that is not one of the two
    collections. *)
Definition preserves (p : places) (h h' : heap) : Prop :=
  ∀ l o, l ≠ p_users p → l ≠ p_posts p → h !! l = Some o → h' !! l = Some o.

Definition place (c : call) (p : places) : loc :=
  match c with
  | AddUser _ _ => p_users p
  | AddPost _ _ => p_posts p
  end.

Definition other_place (c : call) (p : places) : loc :=
  match c with
  | AddUser _ _ => p_posts p
  | AddPost _ _ => p_users p
  end.

(** The places of a builder created in a heap of [n] objects. *)
Definition places_from (n : loc) : places :=
  Places n (n + 1) (n + 2) (n + 3) (n + 4) (n + 5).

(** The instance as the constructor leaves it. *)
Definition instance (n : loc) : object :=
  Obj (<[ "transact" := VObject (Loc (n + 5)) ]>
       (<[ "addPost" := VObject (Loc (n + 4)) ]>
        (<[ "addUser" := VObject (Loc (n + 3)) ]>
         (<[ "posts" := VObject (Loc (n + 2)) ]>
          (<[ "users" := VObject (Loc (n + 1)) ]> ∅)))))
      (Some (Intrinsic "DbSeeder.prototype")) None.

(** The object a collection becomes when the record at [r] is
    assigned to its property [k]. *)
Definition write_entry (o : object) (k : string) (r : loc) : object :=
  if decide (k = "__proto__")
  then Obj (own o) (Some (Loc r)) (code o)
  else Obj (<[k := VObject (Loc r)]> (own o)) (prototype o) (code o).

(** The snapshot [s] shows, under the key of the call [c] in the
    collection it writes to, a record that deep-equals the expected
    [{ ...data, id }]. *)
Definition has_entry (h : heap) (s : value) (c : call) : Prop :=
  deep 1 h <$> get_path h s (category c) (key c)
    = Ok (record_tree (expected c)).

(** The value [s] is a snapshot of the builder at [p]. *)
Definition snapshot_at (h : heap) (p : places) (s : value) : Prop :=
  ∃ l, s = VObject (Loc l) ∧ l ≠ p_users p ∧ l ≠ p_posts p ∧
    h !! l = Some (literal (<[ "posts" := VObject (Loc (p_posts p)) ]>
                             {[ "users" := VObject (Loc (p_users p)) ]})).

End Model.

(** ** Two builders side by side *)

(** The collections of two builders are different objects. *)
Definition apart (p1 p2 : Model.places) : Prop :=
  Model.p_users p1 ≠ Model.p_users p2 ∧ Model.p_users p1 ≠ Model.p_posts p2 ∧
  Model.p_posts p1 ≠ Model.p_users p2 ∧ Model.p_posts p1 ≠ Model.p_posts p2.

(** ** Removing the [maps:] prefix from the keys of an object

    [src/exercises/08-removeMapsFromObj.code.ts], on the same object
    model. *)

Module MapsPrefix.
Import JS.

(** [s.substring(start)]: the string without its first [start] code
    units, empty when there are no more.  (Keys are strings of code
    units; the prefix [maps:] is five of them.) *)
Fixpoint substring (start : nat) (s : string) : string :=
  match start, s with
  | O, _ => s
  | S _, EmptyString => EmptyString
  | S n, String _ s' => substring n s'
  end.

(** [s.startsWith(searchString)] *)
Definition startsWith (s searchString : string) : bool :=
  String.prefix searchString s.

(** The body of the loop, for one [key]. *)
Definition body (obj newObj : value) (key : string) (h : heap) : result heap :=
  if startsWith key "maps:" then
    v ← get_prop h obj key;
    set_prop h newObj (substring 5 key) v
  else
    v ← get_prop h obj key;
    set_prop h newObj key v.

(** [for (const key in obj) { ... }], given the keys that the loop
    visits, in the order in which it visits them. *)
Fixpoint for_in (keys : list string) (body : string → heap → result heap)
    (h : heap) : result heap :=
  match keys with
  | [] => Ok h
  | key :: keys =>
      h ← body key h;
      for_in keys body h
  end.

(** [removeMapsPrefixFromObj(obj)].  The object model keeps no order
    among the properties of an object, so the order of the [for...in]
    enumeration is an argument: [keys] lists the keys of [obj] as the
    loop visits them (see [enumerates]). *)
Definition removeMapsPrefixFromObj (obj : value) (keys : list string)
    (h : heap) : result (value * heap) :=
  let '(newObj, h) := alloc h (literal ∅) in
  h ← for_in keys (body obj (VObject (Loc newObj))) h;
  Ok (VObject (Loc newObj), h).

(** [keys] is an enumeration of [obj] by [for...in]: [obj] is a plain
    object (its prototype is [Object.prototype], which has no
    enumerable property), and [keys] lists its own property names,
    each once. *)
Definition enumerates (h : heap) (obj : value) (keys : list string)
    (o : object) : Prop :=
  ∃ l, obj = VObject (Loc l) ∧ h !! l = Some o ∧
       prototype o = Some object_prototype ∧
       NoDup keys ∧ ∀ k, k ∈ keys ↔ is_Some (own o !! k).

(** The key under which the value of [key] is stored. *)
Definition target (key : string) : string :=
  if String.prefix "maps:" key then substring 5 key else key.

(** A value that the [__proto__] setter ignores. *)
Definition ignored_as_prototype (v : value) : Prop :=
  match v with
  | VString _ | VUndefined => True
  | VNull | VObject _ => False
  end.

(** The own properties of the result after the loop has visited a key:
    a value whose target is [__proto__] goes to the setter. *)
Definition copy_key (o : object) (m : gmap string value) (key : string)
    : gmap string value :=
  if decide (target key = "__proto__") then m
  else match own o !! key with
       | Some v => <[target key := v]> m
       | None => m
       end.

Definition copied (o : object) (keys : list string) : gmap string value :=
  foldl (copy_key o) ∅ keys.

End MapsPrefix.

(** ** Class names of a component

    The two versions of [createComponent] in the repository:
    [src/exercises/07-createComponent.exercise.ts] builds the class
    string with [+], the version that follows
    [removeMapsPrefixFromObj] in
    [src/exercises/08-removeMapsFromObj.code.ts] joins an array. *)

Module CreateComponent.
Import JS.

(** ToString, as [+] applies it to an operand that stands beside a
    string.  The text of an object (a function of [Object.prototype],
    say) is not described. *)
Definition to_string (v : value) : result string :=
  match v with
  | VString s => Ok s
  | VUndefined => Ok "undefined"
  | VNull => Ok "null"
  | VObject _ => Err Unmodelled
  end.

(** [array.join(separator)] for an array of strings. *)
Fixpoint join (separator : string) (array : list string) : string :=
  match array with
  | [] => ""
  | [s] => s
  | s :: array => s +:+ separator +:+ join separator array
  end.

(** The text of one element inside [join]: [undefined] and [null]
    give the empty string. *)
Definition element_string (v : value) : result string :=
  match v with
  | VString s => Ok s
  | VUndefined | VNull => Ok ""
  | VObject _ => Err Unmodelled
  end.

(** [array.toString()], which is [array.join(",")]. *)
Definition array_to_string (array : list string) : string :=
  join "," array.

Module Concat.
(** [component[variant] + " " + otherClasses.join(" ")] *)
Definition createComponent (component : value) (variant : string)
    (otherClasses : list string) (h : heap) : result string :=
  v ← get_prop h component variant;
  s ← to_string v;
  Ok ((s +:+ " ") +:+ join " " otherClasses).
End Concat.

Module Join.
(** [[component[variant], otherClasses].join(" ")]: an array of two
    elements, the second of which is itself an array. *)
Definition createComponent (component : value) (variant : string)
    (otherClasses : list string) (h : heap) : result string :=
  v ← get_prop h component variant;
  s ← element_string v;
  Ok (s +:+ " " +:+ array_to_string otherClasses).
End Join.

End CreateComponent.

(** ** Role based access

    [src/exercises/02-roleBasedAccess.code.ts] *)

Module RoleBasedAccess.

Inductive Role := user | admin | anonymous.

Definition userAccessModel (role : Role) : list string :=
  match role with
  | user => ["update-self"; "view"]
  | admin => ["create"; "update-self"; "update-any"; "delete"; "view"]
  | anonymous => ["view"]
  end.

(** [array.includes(searchElement)] for an array of strings. *)
Fixpoint includes (array : list string) (searchElement : string) : bool :=
  match array with
  | [] => false
  | s :: array => String.eqb s searchElement || includes array searchElement
  end.

Definition canUserAccess (role : Role) (action : string) : bool :=
  includes (userAccessModel role) action.

End RoleBasedAccess.

(** ** Valid e-mail addresses

    [src/exercises/04-isValidEmail.code.ts] *)

Module ValidEmail.

(** [s.includes(searchString)]: does [searchString] occur in [s]? *)
Fixpoint includes (s searchString : string) : bool :=
  String.prefix searchString s ||
  match s with
  | EmptyString => false
  | String _ s' => includes s' searchString
  end.

Definition isValidEmail (email : string) : bool :=
  includes email "@".

(** How the promise of an [async] function settles: fulfilled with a
    value, or rejected with an [Error] that carries a message. *)
Inductive settled (A : Type) :=
  | Fulfilled (a : A)
  | Rejected (message : string).
Arguments Fulfilled {A} a.
Arguments Rejected {A} message.

Record Values := { email : string }.

Definition createUser (user : Values) : settled Values :=
  Fulfilled user.

Definition onSubmit (values : Values) : settled unit :=
  if negb (isValidEmail (email values)) then Rejected "Email is invalid"
  else match createUser {| email := email values |} with
       | Fulfilled _ => Fulfilled tt
       | Rejected message => Rejected message
       end.

End ValidEmail.

(** ** Sample objects

    The objects that the exercises themselves use, as lists of
    properties in the order in which they are written. *)

(** An object of the interface [ApiData] of
    [src/exercises/08-removeMapsFromObj.code.ts], with one more key
    that has no prefix. *)
Definition apiData : list (string * JS.value) :=
  [ ("maps:longitude", JS.VString "1"); ("maps:latitude", JS.VString "2");
    ("name", JS.VString "home") ].

(** An object in which a key with the prefix and the same key without
    it meet. *)
Definition colliding : list (string * JS.value) :=
  [ ("maps:x", JS.VString "prefixed"); ("x", JS.VString "plain") ].

(** An object whose keys lead to [__proto__]. *)
Definition protoData : list (string * JS.value) :=
  [ ("maps:__proto__", JS.VString "x"); ("a", JS.VString "y") ].

(** The argument of [createComponent] in
    [src/exercises/07-createComponent.exercise.ts]. *)
Definition buttonClasses : list (string * JS.value) :=
  [ ("primary", JS.VString "bg-blue-300");
    ("secondary", JS.VString "bg-green-300") ].

(** ** Facts about the object model *)

Section object_model.
Import JS.
Implicit Types (h : heap) (l r : loc) (o : object) (k : string) (v : value).

Lemma alloc_keeps h o l o' :
  h !! l = Some o' → (h ++ [o]) !! l = Some o'.
Proof. intros Hl. rewrite lookup_app_l; [done|]. by eapply lookup_lt_Some. Qed.

Lemma get_prop_own h l o k v :
  h !! l = Some o → own o !! k = Some v →
  get_prop h (VObject (Loc l)) k = Ok v.
Proof. intros Hl Hk. simpl. by rewrite Hl, Hk. Qed.

Lemma define_own_ok h l o k v :
  h !! l = Some o →
  define_own h l k v = Ok (<[l := Obj (<[k := v]> (own o)) (prototype o) (code o)]> h).
Proof. intros Hl. unfold define_own. by rewrite Hl. Qed.

Lemma lookup_update_eq h l o o' :
  h !! l = Some o → <[l := o']> h !! l = Some o'.
Proof. intros Hl. apply list_lookup_insert_eq. by eapply lookup_lt_Some. Qed.

Lemma lookup_update_ne h l l' o' :
  l ≠ l' → <[l' := o']> h !! l = h !! l.
Proof. intros Hne. by apply list_lookup_insert_ne. Qed.

End object_model.

Section walks.
Import JS.
Implicit Types (h : heap) (l r : loc) (o : object) (k : string) (v : value).

Lemma get_walk_object_prototype fuel h k recv :
  get_walk fuel h (Some object_prototype) k recv = object_prototype_get h k recv.
Proof. by destruct fuel. Qed.

Lemma get_walk_own fuel h l o k v recv :
  h !! l = Some o → own o !! k = Some v →
  get_walk fuel h (Some (Loc l)) k recv = Ok v.
Proof. intros Hl Hk. destruct fuel; simpl; by rewrite Hl, Hk. Qed.

Lemma get_walk_next fuel h l o k recv :
  h !! l = Some o → own o !! k = None →
  get_walk (S fuel) h (Some (Loc l)) k recv = get_walk fuel h (prototype o) k recv.
Proof. intros Hl Hk. simpl. by rewrite Hl, Hk. Qed.

Lemma set_walk_object_prototype fuel h k v l :
  set_walk fuel h (Some object_prototype) k v l =
    if decide (k = "__proto__") then object_prototype_proto_setter h l v
    else define_own h l k v.
Proof. by destruct fuel. Qed.

Lemma set_walk_own fuel h l o k v' v recv :
  h !! l = Some o → own o !! k = Some v' →
  set_walk fuel h (Some (Loc l)) k v recv = define_own h recv k v.
Proof. intros Hl Hk. destruct fuel; simpl; by rewrite Hl, Hk. Qed.

Lemma set_walk_next fuel h l o k v recv :
  h !! l = Some o → own o !! k = None →
  set_walk (S fuel) h (Some (Loc l)) k v recv = set_walk fuel h (prototype o) k v recv.
Proof. intros Hl Hk. simpl. by rewrite Hl, Hk. Qed.

Lemma reaches_object_prototype fuel h l :
  reaches fuel h (Some object_prototype) l = Ok false.
Proof. by destruct fuel. Qed.

Lemma heap_nonempty h l o : h !! l = Some o → ∃ n, length h = S n.
Proof.
  intros Hl. apply lookup_lt_Some in Hl.
  destruct (length h); [lia | eauto].
Qed.

End walks.

(** ** Records and collections on the heap *)

Section collections.
Import JS DbSeeder Model.
Implicit Types (h : heap) (l r : loc) (o : object) (k : string) (v : value).
Implicit Types (f : gmap string string) (m : gmap string (gmap string string)).

Lemma record_not_collection h r k f l m :
  record_at h r k f → collection_at h l m → r ≠ l.
Proof.
  intros (Hr & Hid & _) (o & Hl & _ & _ & Hown & _) ->.
  rewrite Hr in Hl. injection Hl as <-.
  specialize (Hown "id"). simpl in Hown.
  rewrite lookup_fmap, Hid in Hown. simpl in Hown.
  destruct Hown as (r' & f' & Hv & _); [done | discriminate].
Qed.

Lemma record_at_alloc h r k f o :
  record_at h r k f → record_at (h ++ [o]) r k f.
Proof. intros (Hr & ?). split; [by apply alloc_keeps | done]. Qed.

Lemma record_at_update h r k f l o :
  r ≠ l → record_at h r k f → record_at (<[l := o]> h) r k f.
Proof. intros Hne (Hr & ?). split; [by rewrite lookup_update_ne | done]. Qed.

Lemma record_own_string h r k f k' :
  record_at h r k f →
  ∃ o, h !! r = Some o ∧ code o = None ∧
       prototype o = Some object_prototype ∧
       own o !! k' = VString <$> f !! k'.
Proof.
  intros (Hr & _). eexists. split; [exact Hr|].
  simpl. by rewrite lookup_fmap.
Qed.

Lemma collection_at_alloc h l m o :
  collection_at h l m → collection_at (h ++ [o]) l m.
Proof.
  intros (o0 & Hl & Hc & Hp & Hown & Hproto).
  exists o0. split_and!; [by apply alloc_keeps | done | done | |].
  - intros k Hk. specialize (Hown k Hk).
    destruct (own o0 !! k); [|done].
    destruct Hown as (r & f & -> & Hr & Hm).
    exists r, f. eauto using record_at_alloc.
  - destruct (prototype o0) as [[r|n]|]; [|done|done].
    destruct Hproto as (f & Hr & Hm). eauto using record_at_alloc.
Qed.

(** Writing to one collection leaves another one as it is. *)
Lemma collection_at_update h l m l' m' o' :
  l ≠ l' → collection_at h l' m' →
  collection_at h l m → collection_at (<[l' := o']> h) l m.
Proof.
  intros Hne Hother (o0 & Hl & Hc & Hp & Hown & Hproto).
  exists o0. split_and!; [by rewrite lookup_update_ne | done | done | |].
  - intros k Hk. specialize (Hown k Hk).
    destruct (own o0 !! k); [|done].
    destruct Hown as (r & f & -> & Hr & Hm).
    exists r, f. split_and!; [done | | done].
    apply record_at_update; [|done]. eauto using record_not_collection.
  - destruct (prototype o0) as [[r|n]|]; [|done|done].
    destruct Hproto as (f & Hr & Hm). exists f. split; [|done].
    apply record_at_update; [|done]. eauto using record_not_collection.
Qed.

(** The assignment [coll[k] = record]. *)
Lemma set_prop_collection h l o m r k f :
  h !! l = Some o → collection_at h l m → record_at h r k f →
  set_prop h (VObject (Loc l)) k (VObject (Loc r))
    = Ok (<[l := write_entry o k r]> h).
Proof.
  intros Hl Hcoll Hrec.
  assert (r ≠ l) as Hrl by eauto using record_not_collection.
  destruct Hcoll as (o0 & Hl0 & Hc & Hp & Hown & Hproto).
  assert (o0 = o) as -> by congruence. clear Hl0.
  destruct (heap_nonempty _ _ _ Hl) as [n Hn].
  unfold set_prop, write_entry.
  assert (set_prototype_of h l (Some (Loc r))
            = Ok (<[l := Obj (own o) (Some (Loc r)) (code o)]> h)) as Hsetter.
  { unfold set_prototype_of. rewrite Hl. case_decide as Hsame.
    - f_equal. symmetry. apply list_insert_id. rewrite Hl. f_equal.
      destruct o; simpl in *; by subst.
    - rewrite Hn. simpl. rewrite decide_False by done.
      destruct Hrec as (-> & _). simpl.
      by rewrite reaches_object_prototype. }
  destruct (decide (k = "__proto__")) as [->|Hk].
  - rewrite (set_walk_next _ _ _ _ _ _ _ Hl Hp).
    destruct (prototype o) as [[r0|i]|] eqn:Hpo; [| |done].
    + destruct Hproto as (f0 & Hr0 & _).
      destruct (record_own_string _ _ _ _ "__proto__" Hr0) as (o1 & Ho1 & _ & Hp1 & Hown1).
      destruct Hr0 as (_ & _ & Hnp). rewrite Hnp in Hown1.
      rewrite Hn, (set_walk_next _ _ _ _ _ _ _ Ho1 Hown1), Hp1.
      by rewrite set_walk_object_prototype.
    + destruct Hproto as [-> _].
      change (Some (Intrinsic "%Object.prototype%")) with (Some object_prototype).
      by rewrite set_walk_object_prototype.
  - specialize (Hown k Hk).
    destruct (own o !! k) as [v'|] eqn:Hok.
    { rewrite (set_walk_own _ _ _ _ _ _ _ _ Hl Hok). by rewrite (define_own_ok _ _ _ _ _ Hl), ?Hpo. }
    rewrite (set_walk_next _ _ _ _ _ _ _ Hl Hok).
    destruct (prototype o) as [[r0|i]|] eqn:Hpo; [| |done].
    + destruct Hproto as (f0 & Hr0 & _).
      destruct (record_own_string _ _ _ _ k Hr0) as (o1 & Ho1 & _ & Hp1 & Hown1).
      destruct (f0 !! k) as [s|]; simpl in Hown1.
      { rewrite (set_walk_own _ _ _ _ _ _ _ _ Ho1 Hown1). by rewrite (define_own_ok _ _ _ _ _ Hl), ?Hpo. }
      rewrite Hn, (set_walk_next _ _ _ _ _ _ _ Ho1 Hown1), Hp1.
      rewrite set_walk_object_prototype, decide_False by done.
      by rewrite (define_own_ok _ _ _ _ _ Hl), ?Hpo.
    + destruct Hproto as [-> _].
      change (Some (Intrinsic "%Object.prototype%")) with (Some object_prototype).
      rewrite set_walk_object_prototype, decide_False by done.
      by rewrite (define_own_ok _ _ _ _ _ Hl), ?Hpo.
Qed.

Lemma collection_at_write h l o m r k f :
  h !! l = Some o → collection_at h l m → record_at h r k f →
  collection_at (<[l := write_entry o k r]> h) l (<[k := f]> m).
Proof.
  intros Hl Hcoll Hrec.
  assert (r ≠ l) as Hrl by eauto using record_not_collection.
  assert (∀ o' r' k' f', record_at h r' k' f' →
            record_at (<[l := o']> h) r' k' f') as Hkeep.
  { intros o' r' k' f' Hr'. apply record_at_update; [|done].
    eauto using record_not_collection. }
  destruct Hcoll as (o0 & Hl0 & Hc & Hp & Hown & Hproto).
  assert (o0 = o) as -> by congruence. clear Hl0.
  exists (write_entry o k r).
  split; [by eapply lookup_update_eq|].
  unfold write_entry. destruct (decide (k = "__proto__")) as [->|Hk]; simpl.
  - split_and!; [done | done | | ].
    + intros k' Hk'. specialize (Hown k' Hk').
      rewrite lookup_insert_ne by done.
      destruct (own o !! k'); [|done].
      destruct Hown as (r' & f' & -> & Hr' & Hm). eauto 10.
    + exists f. split; [by apply Hkeep | by rewrite lookup_insert_eq].
  - split_and!; [done | by rewrite lookup_insert_ne | | ].
    + intros k' Hk'. specialize (Hown k' Hk').
      destruct (decide (k = k')) as [<-|Hkk].
      * rewrite !lookup_insert_eq. exists r, f. split_and!; [done | by apply Hkeep | done].
      * rewrite !lookup_insert_ne by done.
        destruct (own o !! k'); [|done].
        destruct Hown as (r' & f' & -> & Hr' & Hm). eauto 10.
    + rewrite lookup_insert_ne by done.
      destruct (prototype o) as [[r0|i]|]; [|done|done].
      destruct Hproto as (f0 & Hr0 & Hm). eauto.
Qed.

(** Reading a property of a collection. *)
Lemma get_prop_collection h l m k :
  collection_at h l m →
  match m !! k with
  | Some f => ∃ r, get_prop h (VObject (Loc l)) k = Ok (VObject (Loc r)) ∧
                   record_at h r k f
  | None => ∃ v, get_prop h (VObject (Loc l)) k = Ok v ∧
                 (∀ r, v ≠ VObject (Loc r)) ∧ deep 1 h v = read m k
  end.
Proof.
  intros (o & Hl & Hc & Hp & Hown & Hproto).
  destruct (heap_nonempty _ _ _ Hl) as [n Hn].
  unfold get_prop, read.
  destruct (decide (k = "__proto__")) as [->|Hk].
  - rewrite (get_walk_next _ _ _ _ _ _ Hl Hp).
    destruct (prototype o) as [[r0|i]|] eqn:Hpo; [| |done].
    + destruct Hproto as (f0 & Hr0 & ->). exists r0. split; [|done].
      destruct (record_own_string _ _ _ _ "__proto__" Hr0) as (o1 & Ho1 & _ & Hp1 & Hown1).
      destruct Hr0 as (_ & _ & Hnp). rewrite Hnp in Hown1.
      rewrite Hn, (get_walk_next _ _ _ _ _ _ Ho1 Hown1), Hp1.
      rewrite get_walk_object_prototype.
      unfold object_prototype_get. simpl. by rewrite Hl, Hpo.
    + destruct Hproto as [-> ->].
      change (Some (Intrinsic "%Object.prototype%")) with (Some object_prototype).
      rewrite get_walk_object_prototype.
      unfold object_prototype_get. simpl. rewrite Hl, Hpo. simpl.
      eexists. split; [done|]. split; [by intros ?|done].
  - specialize (Hown k Hk).
    destruct (own o !! k) as [v'|] eqn:Hok.
    { destruct Hown as (r & f & -> & Hr & ->). exists r.
      by rewrite (get_walk_own _ _ _ _ _ _ _ Hl Hok). }
    rewrite Hown, (get_walk_next _ _ _ _ _ _ Hl Hok).
    assert (∃ v, object_prototype_get h k (Loc l) = Ok v ∧
              (∀ r, v ≠ VObject (Loc r)) ∧
              deep 1 h v = if decide (k ∈ object_prototype_members)
                           then TOpaque else TUndefined) as Hbuiltin.
    { unfold object_prototype_get.
      rewrite (decide_False (P := k = "__proto__")) by done.
      case_decide; eexists; (split; [done|]); (split; [by intros ?|done]). }
    destruct (prototype o) as [[r0|i]|] eqn:Hpo; [| |done].
    + destruct Hproto as (f0 & Hr0 & ->). simpl.
      destruct (record_own_string _ _ _ _ k Hr0) as (o1 & Ho1 & _ & Hp1 & Hown1).
      destruct (f0 !! k) as [s|]; simpl in Hown1.
      { rewrite (get_walk_own _ _ _ _ _ _ _ Ho1 Hown1).
        eexists. split; [done|]. split; [by intros ?|done]. }
      rewrite Hn, (get_walk_next _ _ _ _ _ _ Ho1 Hown1), Hp1.
      by rewrite get_walk_object_prototype.
    + destruct Hproto as [-> ->]. simpl.
      change (Some (Intrinsic "%Object.prototype%")) with (Some object_prototype).
      by rewrite get_walk_object_prototype.
Qed.

(** What a deep comparison sees of a record and of a collection. *)
Lemma deep_record h r k f n :
  record_at h r k f → deep (S n) h (VObject (Loc r)) = record_tree f.
Proof.
  intros (Hr & _). simpl. rewrite Hr. simpl. unfold record_tree. f_equal.
  rewrite <- map_fmap_compose. apply map_fmap_ext. intros i x _. by destruct n.
Qed.

Lemma deep_collection h l m n :
  collection_at h l m →
  deep (S (S n)) h (VObject (Loc l)) = collection_tree m.
Proof.
  intros (o & Hl & Hc & Hp & Hown & Hproto).
  change (deep (S (S n)) h (VObject (Loc l))) with
    (match h !! l with
     | Some o => match code o with
                 | Some _ => TFunction
                 | None => TObject (deep (S n) h <$> own o)
                 end
     | None => TOpaque
     end).
  rewrite Hl, Hc. unfold collection_tree. f_equal.
  apply map_eq. intros k. rewrite !lookup_fmap.
  destruct (decide (k = "__proto__")) as [->|Hk].
  - by rewrite Hp, lookup_delete_eq.
  - rewrite lookup_delete_ne by done. specialize (Hown k Hk).
    destruct (own o !! k) as [v|].
    + destruct Hown as (r & f & -> & Hr & ->).
      simpl. f_equal. by eapply deep_record.
    + by rewrite Hown.
Qed.

End collections.

(** ** The builder on the heap *)

Section builder.
Import JS DbSeeder Model.
Implicit Types (h : heap) (l r : loc) (o : object) (k : string) (v : value).
Implicit Types (p : places) (a : db) (c : call) (cs : list call).

#[local] Arguments set_prop : simpl never.
#[local] Arguments get_prop : simpl never.

Lemma new_DbSeeder_heap h :
  new_DbSeeder h =
    Ok (VObject (Loc (length h)),
        h ++ [ instance (length h); literal ∅; literal ∅;
               closure MAddUser (length h); closure MAddPost (length h);
               closure MTransact (length h) ]).
Proof.
  unfold new_DbSeeder, alloc, instance.
  repeat first
    [ progress (rewrite <- ?app_assoc; simpl)
    | rewrite length_app; simpl
    | erewrite define_own_ok by (apply list_lookup_middle; reflexivity); simpl
    | rewrite insert_app_r_alt by lia; rewrite Nat.sub_diag; simpl ].
  rewrite !Nat.add_1_r. repeat f_equal; lia.
Qed.


Lemma lookup_tail h (t : list object) i : (h ++ t) !! (length h + i) = t !! i.
Proof. rewrite lookup_app_r by lia. f_equal. lia. Qed.

Lemma collection_at_empty h l :
  h !! l = Some (literal ∅) → collection_at h l ∅.
Proof.
  intros Hl. exists (literal ∅). by split_and!.
Qed.

Lemma new_DbSeeder_spec h :
  ∃ h', new_DbSeeder h = Ok (VObject (Loc (length h)), h') ∧
        seeder_at h' (places_from (length h)) empty_db ∧
        (∀ l o, h !! l = Some o → h' !! l = Some o).
Proof.
  eexists. split; [apply new_DbSeeder_heap|]. split.
  - exists (instance (length h)). simpl.
    assert (∀ i o t, t !! i = Some o → (h ++ t) !! (length h + i) = Some o) as Hat.
    { intros i o t <-. apply lookup_tail. }
    assert ((h ++ [ instance (length h); literal ∅; literal ∅;
                    closure MAddUser (length h); closure MAddPost (length h);
                    closure MTransact (length h) ]) !! length h
            = Some (instance (length h))) as Hthis.
    { by apply list_lookup_middle. }
    split_and!; try done; try lia;
      try (split; [done|]); try apply collection_at_empty; by apply Hat.
  - intros l o Hl. rewrite lookup_app_l; [done | by eapply lookup_lt_Some].
Qed.


Lemma function_not_collection h fl fm this l m :
  h !! fl = Some (closure fm this) → collection_at h l m → fl ≠ l.
Proof.
  intros Hf (o & Hl & Hc & _) ->. rewrite Hf in Hl.
  injection Hl as <-. discriminate.
Qed.

Lemma has_function_alloc h ob k fl fm this o :
  has_function h ob k fl fm this → has_function (h ++ [o]) ob k fl fm this.
Proof. intros [? ?]. split; [done | by apply alloc_keeps]. Qed.

Lemma has_function_update h ob k fl fm this l m o :
  collection_at h l m →
  has_function h ob k fl fm this → has_function (<[l := o]> h) ob k fl fm this.
Proof.
  intros Hcoll [? Hf]. split; [done|].
  rewrite lookup_update_ne; [done|]. eauto using function_not_collection.
Qed.

Lemma seeder_at_alloc h p a o :
  seeder_at h p a → seeder_at (h ++ [o]) p a.
Proof.
  intros (ob & Hb & Hu & Hp & Hfu & Hfp & Hft & ? & ? & ? & Hcu & Hcp).
  exists ob. split_and!;
    eauto using alloc_keeps, has_function_alloc, collection_at_alloc.
Qed.

Lemma seeder_at_write_users h p a o r k f :
  seeder_at h p a → h !! p_users p = Some o → record_at h r k f →
  seeder_at (<[p_users p := write_entry o k r]> h) p
    (Db (<[k := f]> (users a)) (posts a)).
Proof.
  intros (ob & Hb & Hu & Hp & Hfu & Hfp & Hft & ? & ? & ? & Hcu & Hcp) Ho Hr.
  exists ob. split_and!; try done; eauto using has_function_update.
  - by rewrite lookup_update_ne.
  - simpl. by apply collection_at_write.
  - simpl. eapply collection_at_update; eauto.
Qed.

Lemma seeder_at_write_posts h p a o r k f :
  seeder_at h p a → h !! p_posts p = Some o → record_at h r k f →
  seeder_at (<[p_posts p := write_entry o k r]> h) p
    (Db (users a) (<[k := f]> (posts a))).
Proof.
  intros (ob & Hb & Hu & Hp & Hfu & Hfp & Hft & ? & ? & ? & Hcu & Hcp) Ho Hr.
  exists ob. split_and!; try done; eauto using has_function_update.
  - by rewrite lookup_update_ne.
  - simpl. eapply collection_at_update; eauto.
  - simpl. by apply collection_at_write.
Qed.

Lemma user_record_fields id user :
  <[ "id" := VString id ]> (spread_user user) = VString <$> user_fields id user.
Proof.
  unfold spread_user, user_fields, user_object. simpl.
  by rewrite fmap_insert, map_fmap_singleton.
Qed.

Lemma post_record_fields id post :
  <[ "id" := VString id ]> (spread_post post) = VString <$> post_fields id post.
Proof.
  unfold spread_post, post_fields, post_object. simpl.
  rewrite !fmap_insert, map_fmap_singleton.
  apply map_eq. intros k. rewrite !lookup_insert.
  repeat case_decide; subst; try done.
  by rewrite !lookup_singleton_ne.
Qed.

Lemma expected_id c : expected c !! "id" = Some (key c).
Proof. destruct c; apply lookup_insert_eq. Qed.

Lemma expected_no_proto c : expected c !! "__proto__" = None.
Proof. by destruct c. Qed.

Lemma preserves_refl p h : preserves p h h.
Proof. by intros l o _ _ ?. Qed.

Lemma preserves_trans p h1 h2 h3 :
  preserves p h1 h2 → preserves p h2 h3 → preserves p h1 h3.
Proof. intros H12 H23 l o ? ? ?. apply H23; auto. Qed.

(** One chained call, made on the builder. *)
Lemma invoke_spec h p a c :
  seeder_at h p a →
  ∃ h', invoke (VObject (Loc (p_this p))) c h = Ok (VObject (Loc (p_this p)), h') ∧
        seeder_at h' p (step a c) ∧
        (∀ l o, l ≠ place c p → h !! l = Some o → h' !! l = Some o).
Proof.
  intros Hs.
  pose proof Hs as (ob & Hb & Hu & Hp & [Hfu Hcu] & [Hfp Hcp] & Hft & ? & ? & ? & Hu_at & Hp_at).
  unfold invoke. destruct c as [id user|id post]; simpl method_name.
  - rewrite (get_prop_own _ _ _ _ _ Hb Hfu). simpl. rewrite Hcu. simpl.
    unfold addUser. rewrite (get_prop_own _ _ _ _ _ Hb Hu). simpl.
    rewrite user_record_fields.
    assert (record_at (h ++ [literal (VString <$> user_fields id user)])
              (length h) id (user_fields id user)) as Hrec.
    { split; [by apply list_lookup_middle|].
      split; [apply (expected_id (AddUser id user)) | done]. }
    pose proof Hu_at as (o & Ho & _).
    erewrite set_prop_collection;
      [ | by apply alloc_keeps | by apply collection_at_alloc | exact Hrec ].
    simpl. eexists. split; [done|]. split.
    + apply seeder_at_write_users; [by apply seeder_at_alloc| by apply alloc_keeps|done].
    + intros l o' ? Hl. rewrite lookup_update_ne by done. by apply alloc_keeps.
  - rewrite (get_prop_own _ _ _ _ _ Hb Hfp). simpl. rewrite Hcp. simpl.
    unfold addPost. rewrite (get_prop_own _ _ _ _ _ Hb Hp). simpl.
    rewrite post_record_fields.
    assert (record_at (h ++ [literal (VString <$> post_fields id post)])
              (length h) id (post_fields id post)) as Hrec.
    { split; [by apply list_lookup_middle|].
      split; [apply (expected_id (AddPost id post)) | done]. }
    pose proof Hp_at as (o & Ho & _).
    erewrite set_prop_collection;
      [ | by apply alloc_keeps | by apply collection_at_alloc | exact Hrec ].
    simpl. eexists. split; [done|]. split.
    + apply seeder_at_write_posts; [by apply seeder_at_alloc| by apply alloc_keeps|done].
    + intros l o' ? Hl. rewrite lookup_update_ne by done. by apply alloc_keeps.
Qed.


Lemma snapshot_at_preserved p h h' s :
  preserves p h h' → snapshot_at h p s → snapshot_at h' p s.
Proof.
  intros Hpres (l & -> & ? & ? & Hl). exists l. split_and!; try done.
  by apply Hpres.
Qed.

Lemma snapshot_at_alloc p h o s :
  snapshot_at h p s → snapshot_at (h ++ [o]) p s.
Proof.
  intros (l & -> & ? & ? & Hl). exists l. split_and!; try done.
  by apply alloc_keeps.
Qed.

(** [await b.transact()] on the builder. *)
Lemma transact_spec h p a :
  seeder_at h p a →
  ∃ s o, invoke_transact (VObject (Loc (p_this p))) h = Ok (s, h ++ [o]) ∧
         seeder_at (h ++ [o]) p a ∧ snapshot_at (h ++ [o]) p s.
Proof.
  intros Hs.
  pose proof Hs as (ob & Hb & Hu & Hp & _ & _ & [Hft Hct] & ? & ? & ? & Hu_at & Hp_at).
  unfold invoke_transact.
  rewrite (get_prop_own _ _ _ _ _ Hb Hft). simpl. rewrite Hct. simpl.
  unfold transact.
  rewrite (get_prop_own _ _ _ _ _ Hb Hu), (get_prop_own _ _ _ _ _ Hb Hp). simpl.
  eexists _, _. split; [done|]. split; [by apply seeder_at_alloc|].
  destruct Hu_at as (ou & Hou & _), Hp_at as (op & Hop & _).
  apply lookup_lt_Some in Hou, Hop.
  exists (length h). split_and!; [done | lia | lia | by apply list_lookup_middle].
Qed.

(** A chain of calls, and the same calls as separate statements. *)
Lemma chain_spec h p a cs :
  seeder_at h p a →
  ∃ h', chain (VObject (Loc (p_this p))) cs h = Ok (VObject (Loc (p_this p)), h') ∧
        statements (VObject (Loc (p_this p))) cs h = Ok h' ∧
        seeder_at h' p (steps a cs) ∧ preserves p h h'.
Proof.
  revert h a. induction cs as [|c cs IH]; intros h a Hs.
  - exists h. split_and!; try done. apply preserves_refl.
  - destruct (invoke_spec _ _ _ c Hs) as (h1 & Hinv & Hs1 & Hp1).
    destruct (IH _ _ Hs1) as (h2 & Hch & Hst & Hs2 & Hp2).
    exists h2. simpl. rewrite Hinv. simpl.
    split_and!; try done. eapply preserves_trans; [|done].
    intros l o ? ? Hl. apply Hp1; [|done]. by destruct c.
Qed.

(** What is seen through a snapshot. *)
Lemma snapshot_users h p a s :
  seeder_at h p a → snapshot_at h p s →
  get_prop h s "users" = Ok (VObject (Loc (p_users p))).
Proof. intros _ (l & -> & _ & _ & Hl). by eapply get_prop_own. Qed.

Lemma snapshot_posts h p a s :
  seeder_at h p a → snapshot_at h p s →
  get_prop h s "posts" = Ok (VObject (Loc (p_posts p))).
Proof. intros _ (l & -> & _ & _ & Hl). by eapply get_prop_own. Qed.

Lemma builder_users h p a :
  seeder_at h p a →
  get_prop h (VObject (Loc (p_this p))) "users" = Ok (VObject (Loc (p_users p))).
Proof. intros (ob & Hb & Hu & _). by eapply get_prop_own. Qed.

Lemma builder_posts h p a :
  seeder_at h p a →
  get_prop h (VObject (Loc (p_this p))) "posts" = Ok (VObject (Loc (p_posts p))).
Proof. intros (ob & Hb & _ & Hp & _). by eapply get_prop_own. Qed.

Lemma deep_snapshot h p a s :
  seeder_at h p a → snapshot_at h p s → deep 3 h s = snapshot_tree a.
Proof.
  intros (ob & _ & _ & _ & _ & _ & _ & _ & _ & _ & Hu_at & Hp_at) (l & -> & _ & _ & Hl).
  change (deep 3 h (VObject (Loc l))) with
    (match h !! l with
     | Some o => match code o with
                 | Some _ => TFunction
                 | None => TObject (deep 2 h <$> own o)
                 end
     | None => TOpaque
     end).
  rewrite Hl. cbn [literal code own]. unfold snapshot_tree. f_equal.
  rewrite fmap_insert, map_fmap_singleton.
  rewrite (deep_collection _ _ _ 0 Hu_at), (deep_collection _ _ _ 0 Hp_at).
  apply map_eq. intros k. rewrite !lookup_insert.
  repeat case_decide; subst; try done.
  by rewrite !lookup_singleton_ne.
Qed.

End builder.

(** ** The accumulated contents *)

Section contents.
Import JS DbSeeder Model.
Implicit Types (a : db) (c : call) (cs : list call) (k : string).

Lemma steps_snoc a cs c : steps a (cs ++ [c]) = step (steps a cs) c.
Proof. unfold steps. by rewrite foldl_app. Qed.

Lemma steps_app a cs1 cs2 : steps a (cs1 ++ cs2) = steps (steps a cs1) cs2.
Proof. unfold steps. by rewrite foldl_app. Qed.

Lemma select_step_same a c c' :
  same_entry c' c → select c (step a c') !! key c = Some (expected c').
Proof.
  unfold same_entry, entry. intros Heq.
  destruct c, c'; simplify_eq/=; by rewrite lookup_insert_eq.
Qed.

Lemma select_step_other a c c' :
  ¬ same_entry c' c → select c (step a c') !! key c = select c a !! key c.
Proof.
  unfold same_entry, entry. intros Hne.
  destruct c, c'; simpl in *; try done;
    rewrite lookup_insert_ne; try done; congruence.
Qed.

(** The record under a key is the one of the last call that wrote it. *)
Lemma select_steps_last a cs1 c cs2 :
  Forall (λ c', ¬ same_entry c' c) cs2 →
  select c (steps a (cs1 ++ c :: cs2)) !! key c = Some (expected c).
Proof.
  induction cs2 as [|c' cs2 IH] using rev_ind; intros Hlater.
  - rewrite steps_snoc. by apply select_step_same.
  - apply Forall_app in Hlater as [Hcs2 Hc'].
    apply Forall_cons in Hc' as [Hc' _].
    rewrite app_comm_cons, app_assoc, steps_snoc.
    rewrite select_step_other by done. by apply IH.
Qed.

Lemma select_steps_written a cs c :
  c ∈ cs → is_Some (select c (steps a cs) !! key c).
Proof.
  induction cs as [|c' cs IH] using rev_ind; intros Hin.
  - by apply elem_of_nil in Hin.
  - rewrite steps_snoc.
    destruct (decide (same_entry c' c)) as [Hsame|Hother].
    + rewrite select_step_same by done. eauto.
    + rewrite select_step_other by done. apply IH.
      apply elem_of_app in Hin as [?|Hc%list_elem_of_singleton]; [done|].
      subst. by destruct Hother.
Qed.

Lemma step_overwrite a c1 c2 :
  same_entry c1 c2 → step (step a c1) c2 = step a c2.
Proof.
  unfold same_entry, entry. intros Heq.
  destruct c1, c2; simplify_eq/=; by rewrite insert_insert_eq.
Qed.

Lemma step_commute a c1 c2 :
  entry c1 ≠ entry c2 → step (step a c1) c2 = step (step a c2) c1.
Proof.
  unfold entry. intros Hne.
  destruct c1, c2; simpl in *; try done;
    f_equal; apply insert_insert_ne; congruence.
Qed.

(** Calls that write pairwise different entries can be made in any
    order. *)
Lemma steps_permutation cs cs' :
  cs ≡ₚ cs' → NoDup (entry <$> cs) → ∀ a, steps a cs = steps a cs'.
Proof.
  induction 1 as [|c cs cs' Hperm IH|c1 c2 cs|cs1 cs2 cs3 H12 IH12 H23 IH23];
    intros Hnd a.
  - done.
  - apply IH. by apply NoDup_cons in Hnd as [_ ?].
  - simpl. f_equal. apply step_commute.
    apply NoDup_cons in Hnd as [Hnotin _].
    intros Heq. apply Hnotin. rewrite Heq. apply elem_of_cons. by left.
  - rewrite IH12 by done. apply IH23.
    by rewrite <- H12.
Qed.

(** Each collection only sees the calls that write to it. *)
Lemma users_steps_ext a a' cs :
  users a = users a' → users (steps a cs) = users (steps a' cs).
Proof.
  revert a a'. induction cs as [|c cs IH]; intros a a' Heq; [done|].
  apply (IH (step a c) (step a' c)). destruct c; simpl; congruence.
Qed.

Lemma posts_steps_ext a a' cs :
  posts a = posts a' → posts (steps a cs) = posts (steps a' cs).
Proof.
  revert a a'. induction cs as [|c cs IH]; intros a a' Heq; [done|].
  apply (IH (step a c) (step a' c)). destruct c; simpl; congruence.
Qed.

Lemma users_steps a cs :
  users (steps a cs) = users (steps a (filter is_user cs)).
Proof.
  revert a. induction cs as [|c cs IH]; intros a; [done|].
  rewrite filter_cons. destruct c as [id user|id post]; simpl.
  - apply (IH (step a (AddUser id user))).
  - rewrite <- IH. by apply users_steps_ext.
Qed.

Lemma posts_steps a cs :
  posts (steps a cs) = posts (steps a (filter is_post cs)).
Proof.
  revert a. induction cs as [|c cs IH]; intros a; [done|].
  rewrite filter_cons. destruct c as [id user|id post]; simpl.
  - rewrite <- IH. by apply posts_steps_ext.
  - apply (IH (step a (AddPost id post))).
Qed.

End contents.

(** ** Reading through the builder and through a snapshot *)

Section reading.
Import JS DbSeeder Model.
Implicit Types (h : heap) (l r : loc) (o : object) (k : string) (v : value).
Implicit Types (p : places) (a : db) (c : call) (cs : list call).

#[local] Arguments set_prop : simpl never.
#[local] Arguments get_prop : simpl never.

Lemma place_collection h p a c :
  seeder_at h p a → collection_at h (place c p) (select c a).
Proof.
  intros (ob & _ & _ & _ & _ & _ & _ & _ & _ & _ & Hu & Hp). by destruct c.
Qed.

Lemma other_place_ne c p h a : seeder_at h p a → other_place c p ≠ place c p.
Proof.
  intros (ob & _ & _ & _ & _ & _ & _ & _ & _ & Hne & _).
  destruct c; simpl; congruence.
Qed.

Lemma snapshot_category h p a s c :
  seeder_at h p a → snapshot_at h p s →
  get_prop h s (category c) = Ok (VObject (Loc (place c p))).
Proof.
  intros Hs Hsnap.
  destruct c; simpl; eauto using snapshot_users, snapshot_posts.
Qed.

Lemma builder_category h p a c :
  seeder_at h p a →
  get_prop h (VObject (Loc (p_this p))) (category c)
    = Ok (VObject (Loc (place c p))).
Proof. intros Hs. destruct c; simpl; eauto using builder_users, builder_posts. Qed.

Lemma builder_other_category h p a c :
  seeder_at h p a →
  get_prop h (VObject (Loc (p_this p))) (other_category c)
    = Ok (VObject (Loc (other_place c p))).
Proof. intros Hs. destruct c; simpl; eauto using builder_users, builder_posts. Qed.

Lemma read_entry h l m k f :
  collection_at h l m → m !! k = Some f →
  ∃ r, get_prop h (VObject (Loc l)) k = Ok (VObject (Loc r)) ∧ record_at h r k f.
Proof.
  intros Hcoll Hk. pose proof (get_prop_collection _ _ _ k Hcoll) as Hget.
  by rewrite Hk in Hget.
Qed.

Lemma read_tree h l m k :
  collection_at h l m →
  deep 1 h <$> get_prop h (VObject (Loc l)) k = Ok (read m k).
Proof.
  intros Hcoll. pose proof (get_prop_collection _ _ _ k Hcoll) as Hget.
  unfold read in Hget |- *. destruct (m !! k) as [f|].
  - destruct Hget as (r & -> & Hr). by rewrite <- (deep_record _ _ _ _ 0 Hr).
  - destruct Hget as (v & -> & _ & Hv). by rewrite <- Hv.
Qed.

Lemma record_id h r k f :
  record_at h r k f → get_prop h (VObject (Loc r)) "id" = Ok (VString k).
Proof.
  intros (Hr & Hid & _). eapply get_prop_own; [done|].
  simpl. by rewrite lookup_fmap, Hid.
Qed.

Lemma read_record_key h l m k r :
  collection_at h l m →
  get_prop h (VObject (Loc l)) k = Ok (VObject (Loc r)) →
  ∃ f, record_at h r k f.
Proof.
  intros Hcoll Hread. pose proof (get_prop_collection _ _ _ k Hcoll) as Hget.
  destruct (m !! k) as [f|].
  - destruct Hget as (r' & Hr' & Hrec). exists f. congruence.
  - destruct Hget as (v & Hv & Hnot & _).
    rewrite Hv in Hread. injection Hread as ->. by destruct (Hnot r).
Qed.

Lemma get_path_via h v k1 k2 l :
  get_prop h v k1 = Ok (VObject (Loc l)) →
  get_path h v k1 k2 = get_prop h (VObject (Loc l)) k2.
Proof. intros Hv. unfold get_path. by rewrite Hv. Qed.

(** The whole program: construction, chain, commit. *)
Lemma seed_spec h cs :
  ∃ s h', seed cs h = Ok (s, h') ∧
          seeder_at h' (places_from (length h)) (steps empty_db cs) ∧
          snapshot_at h' (places_from (length h)) s.
Proof.
  destruct (new_DbSeeder_spec h) as (h0 & Hnew & Hs0 & _).
  destruct (chain_spec _ _ _ cs Hs0) as (h1 & Hch & _ & Hs1 & _).
  destruct (transact_spec _ _ _ Hs1) as (s & o & Htr & Hs2 & Hsnap).
  exists s, (h1 ++ [o]). split; [|done].
  unfold seed. rewrite Hnew. simpl. simpl in Hch. rewrite Hch. simpl.
  exact Htr.
Qed.

Lemma has_entry_intro h p a s c :
  seeder_at h p a → snapshot_at h p s →
  select c a !! key c = Some (expected c) → has_entry h s c.
Proof.
  intros Hs Hsnap Hsel. unfold has_entry.
  rewrite (get_path_via _ _ _ _ _ (snapshot_category _ _ _ _ c Hs Hsnap)).
  rewrite (read_tree _ _ _ _ (place_collection _ _ _ c Hs)).
  unfold read. by rewrite Hsel.
Qed.

End reading.

(** ** The properties of the specification *)

Section claims.
Import JS DbSeeder Model.
Implicit Types (h : heap) (l r : loc) (o : object) (k : string) (v : value).
Implicit Types (p : places) (a : db) (c : call) (cs : list call).

#[local] Arguments set_prop : simpl never.
#[local] Arguments get_prop : simpl never.

Lemma fmap_Ok {A B} (f : A → B) (x : A) : f <$> Ok x = Ok (f x).
Proof. done. Qed.

Lemma other_place_collection h p a c :
  seeder_at h p a → collection_at h (other_place c p) (select_other c a).
Proof.
  intros (ob & _ & _ & _ & _ & _ & _ & _ & _ & _ & Hu & Hp). by destruct c.
Qed.

Lemma select_other_step a c : select_other c (step a c) = select_other c a.
Proof. by destruct c. Qed.

Lemma transacts_spec h p a n :
  seeder_at h p a →
  ∃ ss h', transacts n (VObject (Loc (p_this p))) h = Ok (ss, h') ∧
           length ss = n ∧ seeder_at h' p a ∧
           Forall (snapshot_at h' p) ss ∧
           (∀ l o, h !! l = Some o → h' !! l = Some o).
Proof.
  revert h. induction n as [|n IH]; intros h Hs.
  - exists [], h. by split_and!.
  - destruct (transact_spec _ _ _ Hs) as (s & o & Htr & Hs1 & Hsnap).
    destruct (IH _ Hs1) as (ss & h' & Hrun & Hlen & Hs2 & Hall & Hext).
    exists (s :: ss), h'. simpl. rewrite Htr. simpl. rewrite Hrun. simpl.
    split_and!; [done | by rewrite Hlen | done | | ].
    + constructor; [|done]. eapply snapshot_at_preserved; [|done].
      intros l o' _ _ Hl. by apply Hext.
    + intros l o' Hl. apply Hext. by apply alloc_keeps.
Qed.

Lemma snapshot_reads h p a s :
  seeder_at h p a → snapshot_at h p s →
  deep 3 h s = snapshot_tree a ∧
  (∀ k, deep 1 h <$> get_path h s "users" k = Ok (read (users a) k)) ∧
  (∀ k, deep 1 h <$> get_path h s "posts" k = Ok (read (posts a) k)).
Proof.
  intros Hs Hsnap.
  pose proof Hs as (_ & _ & _ & _ & _ & _ & _ & _ & _ & _ & Hcu & Hcp).
  split_and!.
  - by eapply deep_snapshot.
  - intros k. rewrite (get_path_via _ _ _ _ _ (snapshot_users _ _ _ _ Hs Hsnap)).
    by apply read_tree.
  - intros k. rewrite (get_path_via _ _ _ _ _ (snapshot_posts _ _ _ _ Hs Hsnap)).
    by apply read_tree.
Qed.

(** C8.  A commit on a newly constructed builder, on which no
    [addUser] or [addPost] call was made, returns a snapshot that
    deep-equals [{ users: {}, posts: {} }]: both collections are empty.
    This holds in every heap the builder is created in. *)
Theorem empty_builder_snapshot h :
  ∃ s h', seed [] h = Ok (s, h') ∧
          deep 3 h' s = TObject {[ "users" := TObject ∅; "posts" := TObject ∅ ]}.
Proof.
  destruct (seed_spec h []) as (s & h' & Hseed & Hs & Hsnap).
  exists s, h'. split; [done|].
  by rewrite (deep_snapshot _ _ _ _ Hs Hsnap).
Qed.

(** C2.  The chain of [usage]: starting from a new builder,
    [addUser("matt", {name: "Matt"})], then
    [addPost("post1", {title: "Post 2", authorId: "matt"})], then
    [addPost("post2", {title: "Post", authorId: "matt"})], then
    [transact()].  The [users] collection of the result deep-equals
    [{matt: {id: "matt", name: "Matt"}}] and its [posts] collection
    deep-equals [{post1: {id: "post1", title: "Post 2", authorId: "matt"},
    post2: {id: "post2", title: "Post", authorId: "matt"}}]. *)
Theorem usage_snapshot h :
  ∃ s h', usage h = Ok (s, h') ∧
    deep 2 h' <$> get_prop h' s "users" = Ok (TObject
      {[ "matt" := TObject {[ "id" := TString "matt"; "name" := TString "Matt" ]} ]}) ∧
    deep 2 h' <$> get_prop h' s "posts" = Ok (TObject
      {[ "post1" := TObject {[ "id" := TString "post1"; "title" := TString "Post 2";
                               "authorId" := TString "matt" ]};
         "post2" := TObject {[ "id" := TString "post2"; "title" := TString "Post";
                               "authorId" := TString "matt" ]} ]}).
Proof.
  set (cs := [ AddUser "matt" {| name := "Matt" |};
               AddPost "post1" {| authorId := "matt"; title := "Post 2" |};
               AddPost "post2" {| authorId := "matt"; title := "Post" |} ]).
  destruct (new_DbSeeder_spec h) as (h0 & Hnew & Hs0 & _).
  destruct (chain_spec _ _ _ cs Hs0) as (h1 & Hch & _ & Hs1 & _).
  destruct (transact_spec _ _ _ Hs1) as (s & o & Htr & Hs2 & Hsnap).
  exists s, (h1 ++ [o]).
  pose proof (snapshot_users _ _ _ _ Hs2 Hsnap) as Hu.
  pose proof (snapshot_posts _ _ _ _ Hs2 Hsnap) as Hp.
  pose proof Hs2 as (_ & _ & _ & _ & _ & _ & _ & _ & _ & _ & Hcu & Hcp).
  split_and!.
  - unfold usage. rewrite Hnew. simpl. simpl in Hch.
    destruct (invoke _ _ h0) as [[b1 g1]|]; [|done]. simpl in *.
    destruct (invoke b1 _ g1) as [[b2 g2]|]; [|done]. simpl in *.
    destruct (invoke b2 _ g2) as [[b3 g3]|]; [|done]. simpl in *.
    injection Hch as -> ->. rewrite Htr. simpl. rewrite Hp. simpl.
    destruct (read_entry _ _ _ "post2" _ Hcp eq_refl) as (r & -> & _). done.
  - by rewrite Hu, fmap_Ok, (deep_collection _ _ _ 0 Hcu).
  - by rewrite Hp, fmap_Ok, (deep_collection _ _ _ 0 Hcp).
Qed.


(** Reading an added identifier.  For every sequence of [addUser] and
    [addPost] calls chained on a newly created builder before
    [transact()], and for every identifier passed to one of those
    calls, the property read [snapshot.users[id]], respectively
    [snapshot.posts[id]], yields a record object, and the [id] of that
    record is the identifier.  This holds of the identifier
    [__proto__] as well, although the collection then has no entry:
    the assignment installs the record as the prototype of the
    collection, and the read returns it through the accessor of
    [Object.prototype]. *)
Theorem added_identifier_present h cs c :
  c ∈ cs →
  ∃ s h' r, seed cs h = Ok (s, h') ∧
    get_path h' s (category c) (key c) = Ok (VObject (Loc r)) ∧
    get_prop h' (VObject (Loc r)) "id" = Ok (VString (key c)).
Proof.
  intros Hin.
  destruct (seed_spec h cs) as (s & h' & Hseed & Hs & Hsnap).
  destruct (select_steps_written empty_db cs c Hin) as [f Hf].
  destruct (read_entry _ _ _ _ _ (place_collection _ _ _ c Hs) Hf) as (r & Hread & Hrec).
  exists s, h', r. split_and!; [done | | by eapply record_id].
  by rewrite (get_path_via _ _ _ _ _ (snapshot_category _ _ _ _ c Hs Hsnap)).
Qed.

(** C1, amended.  For every sequence of [addUser] and [addPost] calls
    chained on a newly created builder before [transact()], and for
    every identifier other than [__proto__] passed to one of those
    calls, the snapshot contains an entry keyed by exactly that
    identifier in the corresponding collection ([users] for
    [addUser], [posts] for [addPost]): the collection object has an
    own property of that name, and its value is a record object whose
    [id] is the identifier. *)
Theorem added_identifier_entry h cs c :
  c ∈ cs → key c ≠ "__proto__" →
  ∃ s h' l o r,
    seed cs h = Ok (s, h') ∧
    get_prop h' s (category c) = Ok (VObject (Loc l)) ∧
    h' !! l = Some o ∧ own o !! key c = Some (VObject (Loc r)) ∧
    get_prop h' (VObject (Loc r)) "id" = Ok (VString (key c)).
Proof.
  intros Hin Hkey.
  destruct (seed_spec h cs) as (s & h' & Hseed & Hs & Hsnap).
  destruct (select_steps_written empty_db cs c Hin) as [f Hf].
  pose proof (place_collection _ _ _ c Hs) as (o & Ho & _ & _ & Hown & _).
  specialize (Hown (key c) Hkey).
  destruct (own o !! key c) as [v|] eqn:Hv; [|congruence].
  destruct Hown as (r & f' & -> & Hrec & _).
  exists s, h', (place c (places_from (length h))), o, r.
  split_and!; [done | | done | done | by eapply record_id].
  exact (snapshot_category _ _ _ _ c Hs Hsnap).
Qed.

(** C3.  Last write wins.  For every category, identifier [A] and data
    [X], [Z]: inserting [(A, X)] and then [(A, Z)] into the same
    category raises no error, and the commit yields a snapshot in which
    [snapshot[category][A]] deep-equals [{ ...Z, id: A }]; nothing of
    [X] survives: the whole snapshot deep-equals the one obtained
    without the first insertion.  The two calls may come after any
    other calls. *)
Theorem last_write_wins h cs c1 c2 :
  same_entry c1 c2 →
  ∃ s h' s' g',
    seed (cs ++ [c1; c2]) h = Ok (s, h') ∧
    deep 1 h' <$> get_path h' s (category c2) (key c2)
      = Ok (record_tree (expected c2)) ∧
    seed (cs ++ [c2]) h = Ok (s', g') ∧
    deep 3 h' s = deep 3 g' s'.
Proof.
  intros Hsame.
  destruct (seed_spec h (cs ++ [c1; c2])) as (s & h' & Hseed & Hs & Hsnap).
  destruct (seed_spec h (cs ++ [c2])) as (s' & g' & Hseed' & Hs' & Hsnap').
  exists s, h', s', g'. split_and!; [done | | done | ].
  - eapply has_entry_intro; [done | done |].
    change (cs ++ [c1; c2]) with (cs ++ [c1] ++ c2 :: []).
    rewrite app_assoc. by apply select_steps_last.
  - rewrite (deep_snapshot _ _ _ _ Hs Hsnap), (deep_snapshot _ _ _ _ Hs' Hsnap').
    rewrite !steps_app. simpl. by rewrite step_overwrite.
Qed.

(** C9.  Key/id coherence.  In every builder state reached from a new
    builder by [addUser]/[addPost] calls, and in the snapshot that
    [transact()] then returns, every record found under a key [k] of
    the [users] or of the [posts] collection has its [id] field equal to
    [k]. *)
Theorem key_id_coherence h cs k r :
  ∃ b h0 h1 s h2,
    new_DbSeeder h = Ok (b, h0) ∧ chain b cs h0 = Ok (b, h1) ∧
    invoke_transact b h1 = Ok (s, h2) ∧
    (get_path h1 b "users" k = Ok (VObject (Loc r)) →
       get_prop h1 (VObject (Loc r)) "id" = Ok (VString k)) ∧
    (get_path h1 b "posts" k = Ok (VObject (Loc r)) →
       get_prop h1 (VObject (Loc r)) "id" = Ok (VString k)) ∧
    (get_path h2 s "users" k = Ok (VObject (Loc r)) →
       get_prop h2 (VObject (Loc r)) "id" = Ok (VString k)) ∧
    (get_path h2 s "posts" k = Ok (VObject (Loc r)) →
       get_prop h2 (VObject (Loc r)) "id" = Ok (VString k)).
Proof.
  destruct (new_DbSeeder_spec h) as (h0 & Hnew & Hs0 & _).
  destruct (chain_spec _ _ _ cs Hs0) as (h1 & Hch & _ & Hs1 & _).
  destruct (transact_spec _ _ _ Hs1) as (s & o & Htr & Hs2 & Hsnap).
  eexists _, h0, h1, s, _. split_and!; [done | done | done | | | | ].
  - rewrite (get_path_via _ _ _ _ _ (builder_users _ _ _ Hs1)). intros Hread.
    pose proof Hs1 as (_ & _ & _ & _ & _ & _ & _ & _ & _ & _ & Hcu & _).
    destruct (read_record_key _ _ _ _ _ Hcu Hread) as [f Hrec].
    by eapply record_id.
  - rewrite (get_path_via _ _ _ _ _ (builder_posts _ _ _ Hs1)). intros Hread.
    pose proof Hs1 as (_ & _ & _ & _ & _ & _ & _ & _ & _ & _ & _ & Hcp).
    destruct (read_record_key _ _ _ _ _ Hcp Hread) as [f Hrec].
    by eapply record_id.
  - rewrite (get_path_via _ _ _ _ _ (snapshot_users _ _ _ _ Hs2 Hsnap)). intros Hread.
    pose proof Hs2 as (_ & _ & _ & _ & _ & _ & _ & _ & _ & _ & Hcu & _).
    destruct (read_record_key _ _ _ _ _ Hcu Hread) as [f Hrec].
    by eapply record_id.
  - rewrite (get_path_via _ _ _ _ _ (snapshot_posts _ _ _ _ Hs2 Hsnap)). intros Hread.
    pose proof Hs2 as (_ & _ & _ & _ & _ & _ & _ & _ & _ & _ & _ & Hcp).
    destruct (read_record_key _ _ _ _ _ Hcp Hread) as [f Hrec].
    by eapply record_id.
Qed.

(** C10.  The handle returned by [b.addUser(id, user)] and by
    [b.addPost(id, post)] is the builder [b] itself, in every state the
    builder can be in: the call returns the reference it was made on.
    Hence all handles of a chain are one object, and making the calls
    as separate statements on a saved handle leaves the heap exactly as
    the chain leaves it. *)
Theorem handle_is_builder h cs0 c cs :
  ∃ b h0 h1,
    new_DbSeeder h = Ok (b, h0) ∧ chain b cs0 h0 = Ok (b, h1) ∧
    (∃ h2, invoke b c h1 = Ok (b, h2)) ∧
    (∃ h3, chain b cs h1 = Ok (b, h3) ∧ statements b cs h1 = Ok h3).
Proof.
  destruct (new_DbSeeder_spec h) as (h0 & Hnew & Hs0 & _).
  destruct (chain_spec _ _ _ cs0 Hs0) as (h1 & Hch & _ & Hs1 & _).
  destruct (invoke_spec _ _ _ c Hs1) as (h2 & Hinv & _).
  destruct (chain_spec _ _ _ cs Hs1) as (h3 & Hch3 & Hst3 & _).
  eexists _, h0, h1. split_and!; eauto.
Qed.


(** C7.  The categories are independent.  In every state of a builder,
    a call leaves the collection of the other category alone: it is the
    same object, with the same properties, and it looks the same to a
    deep comparison and to every read.  Hence the [users] of a snapshot
    are those of a builder that only received the [addUser] calls of
    the sequence, and its [posts] are those of a builder that only
    received the [addPost] calls. *)
Theorem categories_independent h cs0 c cs :
  (∃ b h0 h1 h2 l,
     new_DbSeeder h = Ok (b, h0) ∧ chain b cs0 h0 = Ok (b, h1) ∧
     invoke b c h1 = Ok (b, h2) ∧
     get_prop h1 b (other_category c) = Ok (VObject (Loc l)) ∧
     get_prop h2 b (other_category c) = Ok (VObject (Loc l)) ∧
     h2 !! l = h1 !! l ∧
     deep 2 h2 (VObject (Loc l)) = deep 2 h1 (VObject (Loc l)) ∧
     ∀ k, deep 1 h2 <$> get_prop h2 (VObject (Loc l)) k
          = deep 1 h1 <$> get_prop h1 (VObject (Loc l)) k) ∧
  (∃ s h1 su hu sp hp,
     seed cs h = Ok (s, h1) ∧
     seed (filter is_user cs) h = Ok (su, hu) ∧
     seed (filter is_post cs) h = Ok (sp, hp) ∧
     deep 2 h1 <$> get_prop h1 s "users" = deep 2 hu <$> get_prop hu su "users" ∧
     deep 2 h1 <$> get_prop h1 s "posts" = deep 2 hp <$> get_prop hp sp "posts" ∧
     (∀ k, deep 1 h1 <$> get_path h1 s "users" k
           = deep 1 hu <$> get_path hu su "users" k) ∧
     (∀ k, deep 1 h1 <$> get_path h1 s "posts" k
           = deep 1 hp <$> get_path hp sp "posts" k)).
Proof.
  split.
  - destruct (new_DbSeeder_spec h) as (h0 & Hnew & Hs0 & _).
    destruct (chain_spec _ _ _ cs0 Hs0) as (h1 & Hch & _ & Hs1 & _).
    destruct (invoke_spec _ _ _ c Hs1) as (h2 & Hinv & Hs2 & Hframe).
    exists (VObject (Loc (p_this (places_from (length h))))), h0, h1, h2,
      (other_place c (places_from (length h))).
    pose proof (other_place_collection _ _ _ c Hs1) as Hc1.
    pose proof (other_place_collection _ _ _ c Hs2) as Hc2.
    rewrite select_other_step in Hc2.
    split_and!; [done | done | done | | | | | ].
    + exact (builder_other_category _ _ _ c Hs1).
    + exact (builder_other_category _ _ _ c Hs2).
    + destruct Hc1 as (o & Ho & _). rewrite Ho. apply Hframe; [|done].
      by eapply other_place_ne.
    + by rewrite (deep_collection _ _ _ 0 Hc1), (deep_collection _ _ _ 0 Hc2).
    + intros k. by rewrite (read_tree _ _ _ k Hc1), (read_tree _ _ _ k Hc2).
  - destruct (seed_spec h cs) as (s & h1 & Hseed & Hs & Hsnap).
    destruct (seed_spec h (filter is_user cs)) as (su & hu & Hseedu & Hsu & Hsnapu).
    destruct (seed_spec h (filter is_post cs)) as (sp & hp & Hseedp & Hsp & Hsnapp).
    exists s, h1, su, hu, sp, hp.
    destruct (snapshot_reads _ _ _ _ Hs Hsnap) as (_ & Hru & Hrp).
    destruct (snapshot_reads _ _ _ _ Hsu Hsnapu) as (_ & Hruu & _).
    destruct (snapshot_reads _ _ _ _ Hsp Hsnapp) as (_ & _ & Hrpp).
    pose proof Hs as (_ & _ & _ & _ & _ & _ & _ & _ & _ & _ & Hcu & Hcp).
    pose proof Hsu as (_ & _ & _ & _ & _ & _ & _ & _ & _ & _ & Hcuu & _).
    pose proof Hsp as (_ & _ & _ & _ & _ & _ & _ & _ & _ & _ & _ & Hcpp).
    split_and!; [done | done | done | | | | ].
    + rewrite (snapshot_users _ _ _ _ Hs Hsnap), (snapshot_users _ _ _ _ Hsu Hsnapu).
      rewrite !fmap_Ok, (deep_collection _ _ _ 0 Hcu), (deep_collection _ _ _ 0 Hcuu).
      by rewrite (users_steps empty_db cs).
    + rewrite (snapshot_posts _ _ _ _ Hs Hsnap), (snapshot_posts _ _ _ _ Hsp Hsnapp).
      rewrite !fmap_Ok, (deep_collection _ _ _ 0 Hcp), (deep_collection _ _ _ 0 Hcpp).
      by rewrite (posts_steps empty_db cs).
    + intros k. by rewrite Hru, Hruu, (users_steps empty_db cs).
    + intros k. by rewrite Hrp, Hrpp, (posts_steps empty_db cs).
Qed.


(** C6.  Order is irrelevant to the final content, and relevant to
    overwrites.  When the calls of a sequence write pairwise different
    entries (different identifiers within each category), any
    reordering of the sequence yields a deep-equal snapshot, and the
    same result for every read of either collection.  When two calls
    of a sequence write the same entry, and no call after the second
    one writes it again, the snapshot holds the data of the second
    one, the one that came later. *)
Theorem order_irrelevant_later_wins h cs cs' cs1 c1 cs2 c2 cs3 :
  (NoDup (entry <$> cs) → cs ≡ₚ cs' →
     ∃ s g s' g',
       seed cs h = Ok (s, g) ∧ seed cs' h = Ok (s', g') ∧
       deep 3 g s = deep 3 g' s' ∧
       (∀ k, deep 1 g <$> get_path g s "users" k
             = deep 1 g' <$> get_path g' s' "users" k) ∧
       (∀ k, deep 1 g <$> get_path g s "posts" k
             = deep 1 g' <$> get_path g' s' "posts" k)) ∧
  (same_entry c1 c2 → Forall (λ c, ¬ same_entry c c2) cs3 →
     ∃ s g, seed (cs1 ++ c1 :: cs2 ++ c2 :: cs3) h = Ok (s, g) ∧
            has_entry g s c2).
Proof.
  split.
  - intros Hnd Hperm.
    destruct (seed_spec h cs) as (s & g & Hseed & Hs & Hsnap).
    destruct (seed_spec h cs') as (s' & g' & Hseed' & Hs' & Hsnap').
    rewrite <- (steps_permutation _ _ Hperm Hnd) in Hs'.
    destruct (snapshot_reads _ _ _ _ Hs Hsnap) as (Hd & Hu & Hp).
    destruct (snapshot_reads _ _ _ _ Hs' Hsnap') as (Hd' & Hu' & Hp').
    exists s, g, s', g'. split_and!; [done | done | congruence | | ].
    + intros k. by rewrite Hu, Hu'.
    + intros k. by rewrite Hp, Hp'.
  - intros _ Hlater.
    destruct (seed_spec h (cs1 ++ c1 :: cs2 ++ c2 :: cs3))
      as (s & g & Hseed & Hs & Hsnap).
    exists s, g. split; [done|].
    eapply has_entry_intro; [done | done |].
    rewrite app_comm_cons, app_assoc. by apply select_steps_last.
Qed.

(** C5.  The commit is idempotent in shape.  After accumulating the
    two entries [(C1, A, X)] and [(C2, B, Y)] in that order, every one
    of any number of [transact()] calls made on the builder, which is
    left alone in between, yields a snapshot in which
    [snapshot[C1][A]] deep-equals [{ ...X, id: A }] and
    [snapshot[C2][B]] deep-equals [{ ...Y, id: B }].  Two accumulated
    entries are two entries: they differ in category or in
    identifier.  (One entry written twice is the case of C3, where the
    later write wins.) *)
Theorem commit_repeatable h cs c1 c2 n :
  ¬ same_entry c1 c2 →
  ∃ b h0 h1 ss h2,
    new_DbSeeder h = Ok (b, h0) ∧ chain b (cs ++ [c1; c2]) h0 = Ok (b, h1) ∧
    transacts n b h1 = Ok (ss, h2) ∧ length ss = n ∧
    Forall (λ s, has_entry h2 s c1 ∧ has_entry h2 s c2) ss.
Proof.
  intros Hdiff.
  destruct (new_DbSeeder_spec h) as (h0 & Hnew & Hs0 & _).
  destruct (chain_spec _ _ _ (cs ++ [c1; c2]) Hs0) as (h1 & Hch & _ & Hs1 & _).
  destruct (transacts_spec _ _ _ n Hs1) as (ss & h2 & Hrun & Hlen & Hs2 & Hall & _).
  eexists _, h0, h1, ss, h2. split_and!; [done | done | done | done |].
  eapply Forall_impl; [exact Hall|]. intros s Hsnap. split.
  - eapply has_entry_intro; [done | done |].
    apply select_steps_last. constructor; [|done].
    intros Heq. apply Hdiff. unfold same_entry in *. congruence.
  - eapply has_entry_intro; [done | done |].
    change (cs ++ [c1; c2]) with (cs ++ [c1] ++ c2 :: []).
    rewrite app_assoc. by apply select_steps_last.
Qed.


End claims.

(** ** Where two properties fail as stated, and concrete instances *)

Section instances.
Import JS DbSeeder Model.



(** C1 as stated fails for the identifier [__proto__].  After
    [addUser("__proto__", {name: "x"})] the [users] collection of the
    snapshot has no own property at all, and the snapshot deep-equals
    [{ users: {}, posts: {} }]: the assignment went to the
    [__proto__] setter of [Object.prototype], which made the record
    the prototype of the collection.  So it is not the case that every
    identifier passed to an add call is the key of an entry. *)
Lemma proto_identifier_no_entry :
  (∃ s g l o,
     seed [AddUser "__proto__" {| name := "x" |}] [] = Ok (s, g) ∧
     get_prop g s "users" = Ok (VObject (Loc l)) ∧
     g !! l = Some o ∧ own o = ∅ ∧
     deep 3 g s = TObject {[ "users" := TObject ∅; "posts" := TObject ∅ ]}) ∧
  ¬ (∀ (h : heap) (cs : list call) (c : call), c ∈ cs →
       ∃ s h' l o r,
         seed cs h = Ok (s, h') ∧
         get_prop h' s (category c) = Ok (VObject (Loc l)) ∧
         h' !! l = Some o ∧ own o !! key c = Some (VObject (Loc r)) ∧
         get_prop h' (VObject (Loc r)) "id" = Ok (VString (key c))).
Proof.
  split.
  - eexists _, _, _, _. split_and!; vm_compute; reflexivity.
  - intros Hclaim.
    destruct (Hclaim [] [AddUser "__proto__" {| name := "x" |}]
                (AddUser "__proto__" {| name := "x" |}))
      as (s & h' & l & o & r & Hseed & Hget & Hl & Hown & _).
    { apply list_elem_of_here. }
    vm_compute in Hseed. injection Hseed as <- <-.
    vm_compute in Hget. injection Hget as <-.
    vm_compute in Hl. injection Hl as <-.
    vm_compute in Hown. discriminate Hown.
Qed.

(** A concrete instance of the amended C1: the chain of [usage] and
    its second call. *)
Lemma added_identifier_entry_witness :
  AddPost "post1" {| title := "Post 2"; authorId := "matt" |}
    ∈ [ AddUser "matt" {| name := "Matt" |};
        AddPost "post1" {| title := "Post 2"; authorId := "matt" |};
        AddPost "post2" {| title := "Post"; authorId := "matt" |} ] ∧
  "post1" ≠ "__proto__" ∧
  ∃ s h' l o r,
    seed [ AddUser "matt" {| name := "Matt" |};
           AddPost "post1" {| title := "Post 2"; authorId := "matt" |};
           AddPost "post2" {| title := "Post"; authorId := "matt" |} ] []
      = Ok (s, h') ∧
    get_prop h' s "posts" = Ok (VObject (Loc l)) ∧
    h' !! l = Some o ∧ own o !! "post1" = Some (VObject (Loc r)) ∧
    get_prop h' (VObject (Loc r)) "id" = Ok (VString "post1").
Proof.
  assert (AddPost "post1" {| title := "Post 2"; authorId := "matt" |}
            ∈ [ AddUser "matt" {| name := "Matt" |};
                AddPost "post1" {| title := "Post 2"; authorId := "matt" |};
                AddPost "post2" {| title := "Post"; authorId := "matt" |} ]) as Hin.
  { apply list_elem_of_further, list_elem_of_here. }
  assert ("post1" ≠ "__proto__") as Hkey by done.
  split_and!; [exact Hin | exact Hkey |].
  exact (added_identifier_entry [] _ _ Hin Hkey).
Defined.

(** A concrete instance of the read of an added identifier: the chain
    of [usage] and its second call. *)
Lemma added_identifier_present_witness :
  AddPost "post1" {| title := "Post 2"; authorId := "matt" |}
    ∈ [ AddUser "matt" {| name := "Matt" |};
        AddPost "post1" {| title := "Post 2"; authorId := "matt" |};
        AddPost "post2" {| title := "Post"; authorId := "matt" |} ] ∧
  ∃ s h' r,
    seed [ AddUser "matt" {| name := "Matt" |};
           AddPost "post1" {| title := "Post 2"; authorId := "matt" |};
           AddPost "post2" {| title := "Post"; authorId := "matt" |} ] []
      = Ok (s, h') ∧
    get_path h' s "posts" "post1" = Ok (VObject (Loc r)) ∧
    get_prop h' (VObject (Loc r)) "id" = Ok (VString "post1").
Proof.
  assert (AddPost "post1" {| title := "Post 2"; authorId := "matt" |}
            ∈ [ AddUser "matt" {| name := "Matt" |};
                AddPost "post1" {| title := "Post 2"; authorId := "matt" |};
                AddPost "post2" {| title := "Post"; authorId := "matt" |} ]) as Hin.
  { apply list_elem_of_further, list_elem_of_here. }
  split; [exact Hin|].
  exact (added_identifier_present [] _ _ Hin).
Defined.

(** A concrete instance of C3: the user [a] written twice. *)
Lemma last_write_wins_witness :
  same_entry (AddUser "a" {| name := "x" |}) (AddUser "a" {| name := "y" |}) ∧
  ∃ s h' s' g',
    seed ([] ++ [AddUser "a" {| name := "x" |}; AddUser "a" {| name := "y" |}]) []
      = Ok (s, h') ∧
    deep 1 h' <$> get_path h' s "users" "a"
      = Ok (record_tree (user_fields "a" {| name := "y" |})) ∧
    seed ([] ++ [AddUser "a" {| name := "y" |}]) [] = Ok (s', g') ∧
    deep 3 h' s = deep 3 g' s'.
Proof.
  split; [reflexivity|].
  apply (last_write_wins [] [] (AddUser "a" {| name := "x" |})
           (AddUser "a" {| name := "y" |})).
  reflexivity.
Defined.

(** A concrete instance of C5: a user and a post with the same
    identifier, committed twice. *)
Lemma commit_repeatable_witness :
  ¬ same_entry (AddUser "a" {| name := "x" |})
      (AddPost "a" {| title := "t"; authorId := "a" |}) ∧
  ∃ b h0 h1 ss h2,
    new_DbSeeder [] = Ok (b, h0) ∧
    chain b ([] ++ [ AddUser "a" {| name := "x" |};
                     AddPost "a" {| title := "t"; authorId := "a" |} ]) h0
      = Ok (b, h1) ∧
    transacts 2 b h1 = Ok (ss, h2) ∧ length ss = 2 ∧
    Forall (λ s, has_entry h2 s (AddUser "a" {| name := "x" |}) ∧
                 has_entry h2 s (AddPost "a" {| title := "t"; authorId := "a" |}))
           ss.
Proof.
  assert (¬ same_entry (AddUser "a" {| name := "x" |})
            (AddPost "a" {| title := "t"; authorId := "a" |})) as Hdiff.
  { unfold same_entry, entry. simpl. intros Heq. discriminate Heq. }
  split; [exact Hdiff|].
  exact (commit_repeatable [] [] _ _ 2 Hdiff).
Defined.


(** A concrete instance of C6: a user and a post in both orders, and a
    user written twice with a post in between. *)
Lemma order_irrelevant_later_wins_witness :
  NoDup (entry <$> [ AddUser "a" {| name := "x" |};
                     AddPost "p" {| title := "t"; authorId := "a" |} ]) ∧
  [ AddUser "a" {| name := "x" |};
    AddPost "p" {| title := "t"; authorId := "a" |} ]
    ≡ₚ [ AddPost "p" {| title := "t"; authorId := "a" |};
         AddUser "a" {| name := "x" |} ] ∧
  (∃ s g s' g',
     seed [ AddUser "a" {| name := "x" |};
            AddPost "p" {| title := "t"; authorId := "a" |} ] [] = Ok (s, g) ∧
     seed [ AddPost "p" {| title := "t"; authorId := "a" |};
            AddUser "a" {| name := "x" |} ] [] = Ok (s', g') ∧
     deep 3 g s = deep 3 g' s' ∧
     (∀ k, deep 1 g <$> get_path g s "users" k
           = deep 1 g' <$> get_path g' s' "users" k) ∧
     (∀ k, deep 1 g <$> get_path g s "posts" k
           = deep 1 g' <$> get_path g' s' "posts" k)) ∧
  same_entry (AddUser "a" {| name := "x" |}) (AddUser "a" {| name := "y" |}) ∧
  Forall (λ c, ¬ same_entry c (AddUser "a" {| name := "y" |})) [] ∧
  (∃ s g,
     seed ([] ++ AddUser "a" {| name := "x" |}
              :: [AddPost "p" {| title := "t"; authorId := "a" |}]
              ++ AddUser "a" {| name := "y" |} :: []) [] = Ok (s, g) ∧
     has_entry g s (AddUser "a" {| name := "y" |})).
Proof.
  destruct (order_irrelevant_later_wins []
              [ AddUser "a" {| name := "x" |};
                AddPost "p" {| title := "t"; authorId := "a" |} ]
              [ AddPost "p" {| title := "t"; authorId := "a" |};
                AddUser "a" {| name := "x" |} ]
              [] (AddUser "a" {| name := "x" |})
              [AddPost "p" {| title := "t"; authorId := "a" |}]
              (AddUser "a" {| name := "y" |}) []) as [Horder Hlater].
  assert (NoDup (entry <$> [ AddUser "a" {| name := "x" |};
                             AddPost "p" {| title := "t"; authorId := "a" |} ]))
    as Hnd.
  { apply (bool_decide_unpack _). vm_compute. exact I. }
  split_and!.
  - exact Hnd.
  - apply perm_swap.
  - apply Horder; [exact Hnd | apply perm_swap].
  - reflexivity.
  - apply Forall_nil_2.
  - apply Hlater; [reflexivity | apply Forall_nil_2].
Defined.

(** A concrete instance of C9: the user [matt] in a snapshot. *)
Lemma key_id_coherence_witness :
  ∃ b h0 h1 s h2,
    new_DbSeeder [] = Ok (b, h0) ∧
    chain b [AddUser "matt" {| name := "Matt" |}] h0 = Ok (b, h1) ∧
    invoke_transact b h1 = Ok (s, h2) ∧
    get_path h2 s "users" "matt" = Ok (VObject (Loc 6)) ∧
    get_prop h2 (VObject (Loc 6)) "id" = Ok (VString "matt").
Proof.
  destruct (key_id_coherence [] [AddUser "matt" {| name := "Matt" |}] "matt" 6)
    as (b & h0 & h1 & s & h2 & Hnew & Hch & Htr & _ & _ & Husers & _).
  assert (get_path h2 s "users" "matt" = Ok (VObject (Loc 6))) as Hread.
  { vm_compute in Hnew. injection Hnew as <- <-.
    vm_compute in Hch. injection Hch as <-.
    vm_compute in Htr. injection Htr as <- <-.
    vm_compute. reflexivity. }
  exists b, h0, h1, s, h2. split_and!; [done | done | done | done |].
  exact (Husers Hread).
Defined.

(** The identifier [__proto__].  The assignment replaces the prototype
    of the collection: the record is not an own property and a deep
    comparison does not see it; a read of the property finds it, and
    its fields show through the collection as inherited properties. *)
Example proto_identifier :
  ∃ s g,
    seed [AddUser "__proto__" {| name := "x" |}] [] = Ok (s, g) ∧
    deep 3 g s = TObject {[ "users" := TObject ∅; "posts" := TObject ∅ ]} ∧
    deep 1 g <$> get_path g s "users" "__proto__"
      = Ok (TObject {[ "id" := TString "__proto__"; "name" := TString "x" ]}) ∧
    get_path g s "users" "name" = Ok (VString "x").
Proof. eexists _, _. split_and!; vm_compute; reflexivity. Qed.

End instances.

(** ** Further properties of the seeder *)

Section seeder_more.
Import JS DbSeeder Model.
Implicit Types (h : heap) (l r : loc) (o : object) (k : string) (v : value).
Implicit Types (p : places) (a : db) (c : call) (cs : list call).

#[local] Arguments set_prop : simpl never.
#[local] Arguments get_prop : simpl never.

Lemma deep_undefined h v : deep 1 h v = TUndefined → v = VUndefined.
Proof.
  destruct v as [| | |[l|i]]; simpl; try done.
  destruct (h !! l) as [o|]; [|done]. by destruct (code o).
Qed.

Lemma deep_string h v s : deep 1 h v = TString s → v = VString s.
Proof.
  destruct v as [| | |[l|i]]; simpl; try done; [congruence|].
  destruct (h !! l) as [o|]; [|done]. by destruct (code o).
Qed.

(** Reading a key that the collection holds no record for. *)
Lemma read_absent h l m k :
  collection_at h l m → m !! k = None → k ≠ "__proto__" →
  m !! "__proto__" = None →
  get_prop h (VObject (Loc l)) k =
    Ok (if decide (k ∈ object_prototype_members)
        then VObject (Intrinsic ("%Object.prototype." +:+ k +:+ "%"))
        else VUndefined).
Proof.
  intros (o & Hl & Hc & Hp & Hown & Hproto) Hk Hne Hnoproto.
  specialize (Hown k Hne). rewrite Hk in Hown.
  destruct (own o !! k) as [v|] eqn:Hok.
  { by destruct Hown as (? & ? & _ & _ & ?). }
  unfold get_prop. rewrite (get_walk_next _ _ _ _ _ _ Hl Hok).
  destruct (prototype o) as [[r0|i]|]; [| |done].
  - destruct Hproto as (f & _ & Hf). congruence.
  - destruct Hproto as [-> _].
    change (Some (Intrinsic "%Object.prototype%")) with (Some object_prototype).
    rewrite get_walk_object_prototype. unfold object_prototype_get.
    rewrite (decide_False (P := k = "__proto__")) by done.
    by case_decide.
Qed.

Lemma read_inherited h l m k f s :
  collection_at h l m → m !! k = None → k ≠ "__proto__" →
  m !! "__proto__" = Some f → f !! k = Some s →
  get_prop h (VObject (Loc l)) k = Ok (VString s).
Proof.
  intros Hcoll Hk Hne Hproto Hf.
  pose proof (get_prop_collection _ _ _ k Hcoll) as Hget.
  rewrite Hk in Hget. destruct Hget as (v & -> & _ & Hv).
  assert (read m k = TString s) as Hread.
  { unfold read.
    rewrite Hk, (decide_False (P := k = "__proto__")), Hproto by done.
    simpl. by rewrite Hf. }
  rewrite Hread in Hv. f_equal. by eapply deep_string.
Qed.

Lemma select_steps_unwritten a cs c :
  Forall (λ c', ¬ same_entry c' c) cs →
  select c (steps a cs) !! key c = select c a !! key c.
Proof.
  induction cs as [|c' cs IH] using rev_ind; intros Hall; [done|].
  apply Forall_app in Hall as [Hcs Hc']. apply Forall_cons in Hc' as [Hc' _].
  rewrite steps_snoc, select_step_other by done. by apply IH.
Qed.

Lemma users_steps_lookup a cs k :
  is_Some (users (steps a cs) !! k) ↔
  is_Some (users a !! k) ∨ ∃ u, AddUser k u ∈ cs.
Proof.
  induction cs as [|c cs IH] using rev_ind.
  - split; [by left|]. intros [?|[u Hu]]; [done|]. by apply elem_of_nil in Hu.
  - rewrite steps_snoc. destruct c as [id u|id q]; simpl.
    + destruct (decide (id = k)) as [->|Hne].
      * rewrite lookup_insert_eq. split; [|by eauto].
        intros _. right. exists u. apply elem_of_app. right. by left.
      * rewrite lookup_insert_ne by done. rewrite IH. split.
        -- intros [?|[u' Hu']]; [by left|]. right. exists u'.
           apply elem_of_app. by left.
        -- intros [?|[u' Hu']]; [by left|]. right. exists u'.
           apply elem_of_app in Hu' as [?|Hin]; [done|].
           apply list_elem_of_singleton in Hin. congruence.
    + rewrite IH. split.
      * intros [?|[u' Hu']]; [by left|]. right. exists u'.
        apply elem_of_app. by left.
      * intros [?|[u' Hu']]; [by left|]. right. exists u'.
        apply elem_of_app in Hu' as [?|Hin]; [done|].
        by apply list_elem_of_singleton in Hin.
Qed.

Lemma posts_steps_lookup a cs k :
  is_Some (posts (steps a cs) !! k) ↔
  is_Some (posts a !! k) ∨ ∃ q, AddPost k q ∈ cs.
Proof.
  induction cs as [|c cs IH] using rev_ind.
  - split; [by left|]. intros [?|[u Hu]]; [done|]. by apply elem_of_nil in Hu.
  - rewrite steps_snoc. destruct c as [id u|id q]; simpl.
    + rewrite IH. split.
      * intros [?|[u' Hu']]; [by left|]. right. exists u'.
        apply elem_of_app. by left.
      * intros [?|[u' Hu']]; [by left|]. right. exists u'.
        apply elem_of_app in Hu' as [?|Hin]; [done|].
        by apply list_elem_of_singleton in Hin.
    + destruct (decide (id = k)) as [->|Hne].
      * rewrite lookup_insert_eq. split; [|by eauto].
        intros _. right. exists q. apply elem_of_app. right. by left.
      * rewrite lookup_insert_ne by done. rewrite IH. split.
        -- intros [?|[u' Hu']]; [by left|]. right. exists u'.
           apply elem_of_app. by left.
        -- intros [?|[u' Hu']]; [by left|]. right. exists u'.
           apply elem_of_app in Hu' as [?|Hin]; [done|].
           apply list_elem_of_singleton in Hin. congruence.
Qed.


Lemma transact_heap h p a :
  seeder_at h p a →
  ∃ o, invoke_transact (VObject (Loc (p_this p))) h
         = Ok (VObject (Loc (length h)), h ++ [o]) ∧
       seeder_at (h ++ [o]) p a ∧
       snapshot_at (h ++ [o]) p (VObject (Loc (length h))).
Proof.
  intros Hs.
  pose proof Hs as (ob & Hb & Hu & Hp & _ & _ & [Hft Hct] & ? & ? & ? & Hu_at & Hp_at).
  unfold invoke_transact.
  rewrite (get_prop_own _ _ _ _ _ Hb Hft). simpl. rewrite Hct. simpl.
  unfold transact.
  rewrite (get_prop_own _ _ _ _ _ Hb Hu), (get_prop_own _ _ _ _ _ Hb Hp). simpl.
  eexists. split; [done|]. split; [by apply seeder_at_alloc|].
  destruct Hu_at as (ou & Hou & _), Hp_at as (op & Hop & _).
  apply lookup_lt_Some in Hou, Hop.
  exists (length h). split_and!; [done | lia | lia | by apply list_lookup_middle].
Qed.

Lemma users_unwritten a cs k :
  ("users", k) ∉ entry <$> cs → users (steps a cs) !! k = users a !! k.
Proof.
  intros Hnot. induction cs as [|c cs IH] using rev_ind; [done|].
  rewrite fmap_app, not_elem_of_app in Hnot. destruct Hnot as [Hcs Hc].
  rewrite steps_snoc. destruct c as [id u|id q]; simpl; [|by apply IH].
  rewrite lookup_insert_ne; [by apply IH|].
  intros ->. apply Hc. by left.
Qed.

Lemma posts_unwritten a cs k :
  ("posts", k) ∉ entry <$> cs → posts (steps a cs) !! k = posts a !! k.
Proof.
  intros Hnot. induction cs as [|c cs IH] using rev_ind; [done|].
  rewrite fmap_app, not_elem_of_app in Hnot. destruct Hnot as [Hcs Hc].
  rewrite steps_snoc. destruct c as [id u|id q]; simpl; [by apply IH|].
  rewrite lookup_insert_ne; [by apply IH|].
  intros ->. apply Hc. by left.
Qed.

(** Looking up an identifier that was never added.  The collections
    are plain objects: when no [addUser] call was made with the
    identifier [k], nor with [__proto__], [snapshot.users[k]] is
    [undefined], except for the names that every object inherits from
    [Object.prototype] ([toString], [constructor], ...), for which it
    is the built-in function.  The same holds of [snapshot.posts] and
    [addPost]. *)
Theorem absent_identifier h cs k :
  k ≠ "__proto__" →
  ∃ s g, seed cs h = Ok (s, g) ∧
    (("users", k) ∉ entry <$> cs → ("users", "__proto__") ∉ entry <$> cs →
       get_path g s "users" k =
         Ok (if decide (k ∈ object_prototype_members)
             then VObject (Intrinsic ("%Object.prototype." +:+ k +:+ "%"))
             else VUndefined)) ∧
    (("posts", k) ∉ entry <$> cs → ("posts", "__proto__") ∉ entry <$> cs →
       get_path g s "posts" k =
         Ok (if decide (k ∈ object_prototype_members)
             then VObject (Intrinsic ("%Object.prototype." +:+ k +:+ "%"))
             else VUndefined)).
Proof.
  intros Hk.
  destruct (seed_spec h cs) as (s & g & Hseed & Hs & Hsnap).
  pose proof Hs as (_ & _ & _ & _ & _ & _ & _ & _ & _ & _ & Hcu & Hcp).
  exists s, g. split; [done|]. split.
  - intros Hnone Hnoproto.
    rewrite (get_path_via _ _ _ _ _ (snapshot_users _ _ _ _ Hs Hsnap)).
    apply (read_absent _ _ _ _ Hcu); [|done|]; by rewrite users_unwritten.
  - intros Hnone Hnoproto.
    rewrite (get_path_via _ _ _ _ _ (snapshot_posts _ _ _ _ Hs Hsnap)).
    apply (read_absent _ _ _ _ Hcp); [|done|]; by rewrite posts_unwritten.
Qed.

(** Nothing is fabricated: the own keys of [snapshot.users] are exactly
    the identifiers passed to [addUser], and those of [snapshot.posts]
    exactly the identifiers passed to [addPost], the identifier
    [__proto__] excepted. *)
Theorem snapshot_keys h cs :
  ∃ s g mu mp,
    seed cs h = Ok (s, g) ∧
    deep 2 g <$> get_prop g s "users" = Ok (TObject mu) ∧
    deep 2 g <$> get_prop g s "posts" = Ok (TObject mp) ∧
    (∀ k, is_Some (mu !! k) ↔ k ≠ "__proto__" ∧ ∃ u, AddUser k u ∈ cs) ∧
    (∀ k, is_Some (mp !! k) ↔ k ≠ "__proto__" ∧ ∃ q, AddPost k q ∈ cs).
Proof.
  destruct (seed_spec h cs) as (s & g & Hseed & Hs & Hsnap).
  pose proof Hs as (_ & _ & _ & _ & _ & _ & _ & _ & _ & _ & Hcu & Hcp).
  exists s, g, (record_tree <$> delete "__proto__" (users (steps empty_db cs))),
    (record_tree <$> delete "__proto__" (posts (steps empty_db cs))).
  split_and!; [done | | | | ].
  - by rewrite (snapshot_users _ _ _ _ Hs Hsnap), fmap_Ok,
      (deep_collection _ _ _ 0 Hcu).
  - by rewrite (snapshot_posts _ _ _ _ Hs Hsnap), fmap_Ok,
      (deep_collection _ _ _ 0 Hcp).
  - intros k. rewrite lookup_fmap, fmap_is_Some.
    destruct (decide (k = "__proto__")) as [->|Hk].
    + rewrite lookup_delete_eq. split; [by intros [? ?] | by intros [? _]].
    + rewrite lookup_delete_ne, users_steps_lookup by done. split.
      * intros [[? Hempty]|Hu]; [done | by split].
      * intros [_ Hu]. by right.
  - intros k. rewrite lookup_fmap, fmap_is_Some.
    destruct (decide (k = "__proto__")) as [->|Hk].
    + rewrite lookup_delete_eq. split; [by intros [? ?] | by intros [? _]].
    + rewrite lookup_delete_ne, posts_steps_lookup by done. split.
      * intros [[? Hempty]|Hu]; [done | by split].
      * intros [_ Hu]. by right.
Qed.


(** The identifier [__proto__], in general.  A call made with it adds
    no own property: the snapshot deep-equals the one taken without
    the call.  The record is what a read of [__proto__] returns, and
    each of its fields shows through the collection under its own
    name, as an inherited property, unless an entry of that name was
    added. *)
Theorem proto_identifier_inherited h cs c f x :
  key c = "__proto__" → expected c !! f = Some x →
  (category c, f) ∉ entry <$> cs →
  ∃ s g s0 g0,
    seed (cs ++ [c]) h = Ok (s, g) ∧ seed cs h = Ok (s0, g0) ∧
    deep 3 g s = deep 3 g0 s0 ∧
    has_entry g s c ∧
    get_path g s (category c) f = Ok (VString x).
Proof.
  intros Hkey Hf Hnot.
  destruct (seed_spec h (cs ++ [c])) as (s & g & Hseed & Hs & Hsnap).
  destruct (seed_spec h cs) as (s0 & g0 & Hseed0 & Hs0 & Hsnap0).
  exists s, g, s0, g0.
  assert (select c (steps empty_db (cs ++ [c])) !! "__proto__"
            = Some (expected c)) as Hproto.
  { rewrite <- Hkey. by apply (select_steps_last _ _ _ []). }
  assert (f ≠ "__proto__") as Hfne.
  { intros ->. by rewrite expected_no_proto in Hf. }
  split_and!; [done | done | | | ].
  - rewrite (deep_snapshot _ _ _ _ Hs Hsnap), (deep_snapshot _ _ _ _ Hs0 Hsnap0).
    rewrite steps_snoc. unfold snapshot_tree, collection_tree.
    destruct c as [id u|id q]; simpl in *; subst id; by rewrite delete_insert_eq.
  - eapply has_entry_intro; [done | done |].
    by apply (select_steps_last _ _ _ []).
  - rewrite (get_path_via _ _ _ _ _ (snapshot_category _ _ _ _ c Hs Hsnap)).
    eapply (read_inherited _ _ _ _ _ _ (place_collection _ _ _ c Hs));
      [ | done | exact Hproto | exact Hf ].
    rewrite steps_snoc.
    destruct c as [id u|id q]; simpl in *; subst id;
      rewrite lookup_insert_ne by done.
    + by rewrite users_unwritten.
    + by rewrite posts_unwritten.
Qed.

(** No referential integrity.  [addPost] never looks at the users: a
    post whose [authorId] names no user is accepted, and stored with
    that [authorId], while [snapshot.users] holds no record under it. *)
Theorem author_not_checked h cs id post :
  ("users", authorId post) ∉ entry <$> cs →
  ∃ s g r,
    seed (cs ++ [AddPost id post]) h = Ok (s, g) ∧
    get_path g s "posts" id = Ok (VObject (Loc r)) ∧
    get_prop g (VObject (Loc r)) "authorId" = Ok (VString (authorId post)) ∧
    ∀ r', get_path g s "users" (authorId post) ≠ Ok (VObject (Loc r')).
Proof.
  intros Hnot.
  destruct (seed_spec h (cs ++ [AddPost id post])) as (s & g & Hseed & Hs & Hsnap).
  pose proof Hs as (_ & _ & _ & _ & _ & _ & _ & _ & _ & _ & Hcu & Hcp).
  assert (posts (steps empty_db (cs ++ [AddPost id post])) !! id
            = Some (post_fields id post)) as Hpost.
  { rewrite steps_snoc. simpl. by rewrite lookup_insert_eq. }
  destruct (read_entry _ _ _ _ _ Hcp Hpost) as (r & Hread & Hrec).
  exists s, g, r. split_and!; [done | | | ].
  - by rewrite (get_path_via _ _ _ _ _ (snapshot_posts _ _ _ _ Hs Hsnap)).
  - destruct Hrec as (Hr & _). eapply get_prop_own; [exact Hr|].
    simpl. by rewrite lookup_fmap.
  - intros r'. rewrite (get_path_via _ _ _ _ _ (snapshot_users _ _ _ _ Hs Hsnap)).
    pose proof (get_prop_collection _ _ _ (authorId post) Hcu) as Hget.
    assert (users (steps empty_db (cs ++ [AddPost id post])) !! authorId post
              = None) as Hnone.
    { rewrite steps_snoc. simpl. by rewrite users_unwritten. }
    rewrite Hnone in Hget.
    destruct Hget as (v & Hv & Hnotloc & _).
    rewrite Hv. intros [= ->]. by destruct (Hnotloc r').
Qed.


(** *** Several builders, and references that are kept *)

Lemma record_at_keep h h' r k f :
  (∀ o, h !! r = Some o → h' !! r = Some o) →
  record_at h r k f → record_at h' r k f.
Proof. intros Hkeep (Hr & ?). split; [by apply Hkeep | done]. Qed.

Lemma collection_at_keep h h' l m :
  (∀ l' o, h !! l' = Some o → (∀ m', ¬ collection_at h l' m') →
           h' !! l' = Some o) →
  (∀ o, h !! l = Some o → h' !! l = Some o) →
  collection_at h l m → collection_at h' l m.
Proof.
  intros Hothers Hself (o & Hl & Hc & Hp & Hown & Hproto).
  assert (∀ r k f, record_at h r k f → record_at h' r k f) as Hrec.
  { intros r k f Hr. eapply record_at_keep; [|done].
    intros o' Ho'. apply Hothers; [done|].
    intros m' Hm'. by eapply record_not_collection. }
  exists o. split_and!; [by apply Hself | done | done | | ].
  - intros k Hk. specialize (Hown k Hk).
    destruct (own o !! k); [|done].
    destruct Hown as (r & f & -> & Hr & Hm). eauto 10.
  - destruct (prototype o) as [[r|n]|]; [|done|done].
    destruct Hproto as (f & Hr & Hm). eauto.
Qed.

Lemma instance_not_collection h p a m :
  seeder_at h p a → ¬ collection_at h (p_this p) m.
Proof.
  intros (ob & Hb & Hu & _ & _ & _ & _ & _ & _ & _ & Hcu & _)
         (o & Hl & _ & _ & Hown & _).
  assert (o = ob) as -> by congruence.
  specialize (Hown "users"). rewrite Hu in Hown.
  destruct Hown as (r & f & [= <-] & Hr & _); [done|].
  by eapply record_not_collection.
Qed.

(** A builder is untouched by whatever changes only collections of
    other builders. *)
Lemma seeder_at_keep h h' p a :
  seeder_at h p a →
  (∀ l o, h !! l = Some o →
          ((∃ m, collection_at h l m) → l = p_users p ∨ l = p_posts p) →
          h' !! l = Some o) →
  seeder_at h' p a.
Proof.
  intros Hs Hkeep.
  pose proof Hs as (ob & Hb & Hu & Hp & [Hfu Hcu] & [Hfp Hcp] & [Hft Hct]
                    & ? & ? & ? & Hu_at & Hp_at).
  assert (∀ l o, h !! l = Some o → (∀ m', ¬ collection_at h l m') →
                 h' !! l = Some o) as Hothers.
  { intros l o Hl Hnot. apply Hkeep; [done|]. intros [m Hm]. by destruct (Hnot m). }
  assert (∀ fl fm, h !! fl = Some (closure fm (p_this p)) →
                   h' !! fl = Some (closure fm (p_this p))) as Hfun.
  { intros fl fm Hf. apply Hothers; [done|].
    intros m' Hm'. by eapply function_not_collection. }
  exists ob. split_and!; try done.
  - apply Hothers; [done|]. intros m'. by eapply instance_not_collection.
  - split; [done | by apply Hfun].
  - split; [done | by apply Hfun].
  - split; [done | by apply Hfun].
  - eapply collection_at_keep; [done | | done].
    intros o Ho. apply Hkeep; [done | by left].
  - eapply collection_at_keep; [done | | done].
    intros o Ho. apply Hkeep; [done | by right].
Qed.

Lemma apart_sym p1 p2 : apart p1 p2 → apart p2 p1.
Proof. intros (? & ? & ? & ?). by split_and!. Qed.

Lemma chain_beside h p1 a1 p2 a2 cs :
  apart p1 p2 → seeder_at h p1 a1 → seeder_at h p2 a2 →
  ∃ h', chain (VObject (Loc (p_this p1))) cs h
          = Ok (VObject (Loc (p_this p1)), h') ∧
        seeder_at h' p1 (steps a1 cs) ∧ seeder_at h' p2 a2.
Proof.
  intros Hapart. revert h a1. induction cs as [|c cs IH]; intros h a1 Hs1 Hs2.
  - by exists h.
  - destruct (invoke_spec _ _ _ c Hs1) as (h1 & Hinv & Hs1' & Hframe).
    assert (seeder_at h1 p2 a2) as Hs2'.
    { eapply seeder_at_keep; [done|]. intros l o Hl Hcoll.
      apply Hframe; [|done]. intros ->.
      destruct Hapart as (? & ? & ? & ?).
      destruct Hcoll as [Heq|Heq]; [by eexists; eapply place_collection | |];
        destruct c; simpl in Heq; congruence. }
    destruct (IH _ _ Hs1' Hs2') as (h2 & Hch & ? & ?).
    exists h2. simpl. rewrite Hinv. simpl. by split_and!.
Qed.

Lemma seeder_at_extend h h' p a :
  (∀ l o, h !! l = Some o → h' !! l = Some o) →
  seeder_at h p a → seeder_at h' p a.
Proof. intros Hext Hs. eapply seeder_at_keep; [done|]. intros l o Hl _. auto. Qed.

(** Builders do not share state.  Two builders created one after the
    other, and then used in turns, each yield the snapshot of their
    own calls: the collections are fields initialised per instance. *)
Theorem builders_are_separate h cs1 cs2 cs3 :
  ∃ b1 h0 b2 h1 h2 h3 h4 s1 h5 s2 h6,
    new_DbSeeder h = Ok (b1, h0) ∧ new_DbSeeder h0 = Ok (b2, h1) ∧
    b1 ≠ b2 ∧
    chain b1 cs1 h1 = Ok (b1, h2) ∧ chain b2 cs2 h2 = Ok (b2, h3) ∧
    chain b1 cs3 h3 = Ok (b1, h4) ∧
    invoke_transact b1 h4 = Ok (s1, h5) ∧
    invoke_transact b2 h5 = Ok (s2, h6) ∧
    (∃ s g, seed (cs1 ++ cs3) h = Ok (s, g) ∧ deep 3 h6 s1 = deep 3 g s) ∧
    (∃ s g, seed cs2 h = Ok (s, g) ∧ deep 3 h6 s2 = deep 3 g s).
Proof.
  destruct (new_DbSeeder_spec h) as (h0 & Hnew1 & Hs1 & _).
  destruct (new_DbSeeder_spec h0) as (h1 & Hnew2 & Hs2 & Hext).
  assert (length h0 = length h + 6) as Hlen.
  { rewrite new_DbSeeder_heap in Hnew1. injection Hnew1 as <-.
    rewrite length_app. simpl. lia. }
  set (p1 := places_from (length h)) in *.
  set (p2 := places_from (length h0)) in *.
  assert (apart p1 p2) as Hapart.
  { unfold apart, p1, p2. simpl. rewrite Hlen. lia. }
  pose proof (seeder_at_extend _ _ _ _ Hext Hs1) as Hs1'.
  destruct (chain_beside _ _ _ _ _ cs1 Hapart Hs1' Hs2) as (h2 & Hch1 & Hs1a & Hs2a).
  destruct (chain_beside _ _ _ _ _ cs2 (apart_sym _ _ Hapart) Hs2a Hs1a)
    as (h3 & Hch2 & Hs2b & Hs1b).
  destruct (chain_beside _ _ _ _ _ cs3 Hapart Hs1b Hs2b) as (h4 & Hch3 & Hs1c & Hs2c).
  destruct (transact_spec _ _ _ Hs1c) as (s1 & o1 & Htr1 & Hs1d & Hsnap1).
  assert (seeder_at (h4 ++ [o1]) p2 (steps empty_db cs2)) as Hs2d.
  { eapply seeder_at_extend; [|done]. intros l o. apply alloc_keeps. }
  destruct (transact_spec _ _ _ Hs2d) as (s2 & o2 & Htr2 & Hs2e & Hsnap2).
  assert (seeder_at ((h4 ++ [o1]) ++ [o2]) p1 (steps (steps empty_db cs1) cs3))
    as Hs1e.
  { eapply seeder_at_extend; [|done]. intros l o. apply alloc_keeps. }
  pose proof (snapshot_at_alloc _ _ o2 _ Hsnap1) as Hsnap1'.
  destruct (seed_spec h (cs1 ++ cs3)) as (sa & ga & Hseeda & Hsa & Hsnapa).
  destruct (seed_spec h cs2) as (sb & gb & Hseedb & Hsb & Hsnapb).
  rewrite steps_app in Hsa.
  exists (VObject (Loc (p_this p1))), h0, (VObject (Loc (p_this p2))), h1, h2, h3, h4,
    s1, (h4 ++ [o1]), s2, ((h4 ++ [o1]) ++ [o2]).
  split_and!; try done.
  - unfold p1, p2. simpl. rewrite Hlen. intros [=]. lia.
  - exists sa, ga. split; [done|].
    by rewrite (deep_snapshot _ _ _ _ Hs1e Hsnap1'), (deep_snapshot _ _ _ _ Hsa Hsnapa).
  - exists sb, gb. split; [done|].
    by rewrite (deep_snapshot _ _ _ _ Hs2e Hsnap2), (deep_snapshot _ _ _ _ Hsb Hsnapb).
Qed.


Lemma chain_app (b : value) cs1 cs2 h :
  chain b (cs1 ++ cs2) h = '(b', h') ← chain b cs1 h; chain b' cs2 h'.
Proof.
  revert b h. induction cs1 as [|c cs1 IH]; intros b h; simpl; [done|].
  destruct (invoke b c h) as [[b' h']|e]; simpl; [apply IH | done].
Qed.

Lemma chain_one (b : value) c h : chain b [c] h = invoke b c h.
Proof. simpl. by destruct (invoke b c h) as [[? ?]|]. Qed.

Lemma invoke_heap h p a c :
  seeder_at h p a →
  ∃ o, h !! place c p = Some o ∧
       invoke (VObject (Loc (p_this p))) c h
         = Ok (VObject (Loc (p_this p)),
               <[place c p := write_entry o (key c) (length h)]>
                 (h ++ [literal (VString <$> expected c)])).
Proof.
  intros Hs.
  pose proof Hs as (ob & Hb & Hu & Hp & [Hfu Hcu] & [Hfp Hcp] & Hft & ? & ? & ? & Hu_at & Hp_at).
  unfold invoke. destruct c as [id user|id post]; simpl method_name.
  - rewrite (get_prop_own _ _ _ _ _ Hb Hfu). simpl. rewrite Hcu. simpl.
    unfold addUser. rewrite (get_prop_own _ _ _ _ _ Hb Hu). simpl.
    rewrite user_record_fields.
    assert (record_at (h ++ [literal (VString <$> user_fields id user)])
              (length h) id (user_fields id user)) as Hrec.
    { split; [by apply list_lookup_middle|].
      split; [apply (expected_id (AddUser id user)) | done]. }
    pose proof Hu_at as (o & Ho & _).
    erewrite set_prop_collection;
      [ | by apply alloc_keeps | by apply collection_at_alloc | exact Hrec ].
    simpl. by exists o.
  - rewrite (get_prop_own _ _ _ _ _ Hb Hfp). simpl. rewrite Hcp. simpl.
    unfold addPost. rewrite (get_prop_own _ _ _ _ _ Hb Hp). simpl.
    rewrite post_record_fields.
    assert (record_at (h ++ [literal (VString <$> post_fields id post)])
              (length h) id (post_fields id post)) as Hrec.
    { split; [by apply list_lookup_middle|].
      split; [apply (expected_id (AddPost id post)) | done]. }
    pose proof Hp_at as (o & Ho & _).
    erewrite set_prop_collection;
      [ | by apply alloc_keeps | by apply collection_at_alloc | exact Hrec ].
    simpl. by exists o.
Qed.

(** The record that a call stores is a new object. *)
Lemma invoke_fresh h p a c :
  seeder_at h p a →
  ∃ h', invoke (VObject (Loc (p_this p))) c h = Ok (VObject (Loc (p_this p)), h') ∧
        get_path h' (VObject (Loc (p_this p))) (category c) (key c)
          = Ok (VObject (Loc (length h))).
Proof.
  intros Hs. destruct (invoke_heap _ _ _ c Hs) as (o & Ho & Hinv).
  destruct (invoke_spec _ _ _ c Hs) as (h' & Hinv' & Hs' & _).
  rewrite Hinv in Hinv'. injection Hinv' as <-.
  eexists. split; [exact Hinv|].
  rewrite (get_path_via _ _ _ _ _ (builder_category _ _ _ c Hs')).
  pose proof (place_collection _ _ _ c Hs) as (o0 & Ho0 & _ & Hnoproto & _).
  assert (o0 = o) as -> by congruence.
  assert (place c p ≠ length h) as Hne.
  { apply lookup_lt_Some in Ho. lia. }
  set (rec := literal (VString <$> expected c)) in *.
  set (h' := <[place c p := write_entry o (key c) (length h)]> (h ++ [rec])) in *.
  assert (h' !! place c p = Some (write_entry o (key c) (length h))) as Hcoll.
  { unfold h'. eapply lookup_update_eq. by apply alloc_keeps. }
  assert (h' !! length h = Some rec) as Hrec.
  { unfold h'. rewrite lookup_update_ne by done. by apply list_lookup_middle. }
  unfold write_entry in Hcoll. destruct (decide (key c = "__proto__")) as [Hk|Hk].
  - rewrite Hk. unfold get_prop.
    rewrite (get_walk_next _ _ _ _ _ _ Hcoll) by done. simpl prototype.
    assert (length h' = S (length h)) as ->.
    { unfold h'. rewrite length_insert, length_app. simpl. lia. }
    rewrite (get_walk_next _ _ _ _ _ _ Hrec).
    2:{ unfold rec. simpl. by rewrite lookup_fmap, expected_no_proto. }
    unfold rec at 1. simpl prototype. rewrite get_walk_object_prototype.
    unfold object_prototype_get. rewrite decide_True by done.
    simpl. by rewrite Hcoll.
  - eapply get_prop_own; [exact Hcoll|]. simpl. by rewrite lookup_insert_eq.
Qed.

(** The heap of a builder only grows. *)
Lemma seeder_grows h h' p a a' :
  seeder_at h p a → seeder_at h' p a' → preserves p h h' →
  (length h ≤ length h')%nat.
Proof.
  intros Hs Hs' Hpres.
  destruct (decide (length h ≤ length h')%nat) as [|Hlt]; [done|].
  exfalso.
  assert (length h' < length h)%nat as Hin by lia.
  destruct (lookup_lt_is_Some_2 h (length h') Hin) as [o Ho].
  assert (is_Some (h' !! length h')) as [o' Ho'].
  { destruct (decide (length h' = p_users p)) as [Hu|Hu].
    - pose proof Hs' as (_ & _ & _ & _ & _ & _ & _ & _ & _ & _ & (ou & Hou & _) & _).
      rewrite Hu. eauto.
    - destruct (decide (length h' = p_posts p)) as [Hp|Hp].
      + pose proof Hs' as (_ & _ & _ & _ & _ & _ & _ & _ & _ & _ & _ & (op & Hop & _)).
        rewrite Hp. eauto.
      + exists o. by apply Hpres. }
  apply lookup_lt_Some in Ho'. lia.
Qed.

(** A stored record is never updated.  The record object read under an
    identifier stays as it is through all later calls, also when one
    of them overwrites that identifier: the overwrite puts another
    object under the key, and a reference kept from before still shows
    the old data. *)
Theorem record_never_updated h cs1 c cs2 c' :
  same_entry c' c →
  ∃ b h0 h1 r h2 r',
    new_DbSeeder h = Ok (b, h0) ∧
    chain b (cs1 ++ [c]) h0 = Ok (b, h1) ∧
    get_path h1 b (category c) (key c) = Ok (VObject (Loc r)) ∧
    chain b (cs2 ++ [c']) h1 = Ok (b, h2) ∧
    h2 !! r = h1 !! r ∧
    deep 1 h2 (VObject (Loc r)) = record_tree (expected c) ∧
    get_path h2 b (category c) (key c) = Ok (VObject (Loc r')) ∧
    r' ≠ r ∧
    deep 1 h2 (VObject (Loc r')) = record_tree (expected c').
Proof.
  intros Hsame.
  destruct (new_DbSeeder_spec h) as (h0 & Hnew & Hs0 & _).
  destruct (chain_spec _ _ _ (cs1 ++ [c]) Hs0) as (h1 & Hch1 & _ & Hs1 & _).
  destruct (chain_spec _ _ _ (cs2 ++ [c']) Hs1) as (h2 & Hch2 & _ & Hs2 & Hpres).
  assert (select c (steps empty_db (cs1 ++ [c])) !! key c = Some (expected c))
    as Hsel1 by (by apply (select_steps_last _ _ _ [])).
  destruct (read_entry _ _ _ _ _ (place_collection _ _ _ c Hs1) Hsel1)
    as (r & Hread1 & Hrec1).
  assert (select c (steps (steps empty_db (cs1 ++ [c])) (cs2 ++ [c'])) !! key c
            = Some (expected c')) as Hsel2.
  { rewrite steps_snoc. by apply select_step_same. }
  destruct (read_entry _ _ _ _ _ (place_collection _ _ _ c Hs2) Hsel2)
    as (r' & Hread2 & Hrec2).
  assert (h2 !! r = h1 !! r) as Hkeep.
  { pose proof Hrec1 as (Hr & _). rewrite Hr. apply Hpres; [| |done].
    - pose proof Hs1 as (_ & _ & _ & _ & _ & _ & _ & _ & _ & _ & Hcu & _).
      by eapply record_not_collection.
    - pose proof Hs1 as (_ & _ & _ & _ & _ & _ & _ & _ & _ & _ & _ & Hcp).
      by eapply record_not_collection. }
  assert (get_path h2 (VObject (Loc (p_this (places_from (length h)))))
            (category c) (key c) = Ok (VObject (Loc r'))) as Hpath2
    by (by rewrite (get_path_via _ _ _ _ _ (builder_category _ _ _ c Hs2))).
  assert (r' ≠ r) as Hfresh.
  { destruct (chain_spec _ _ _ cs2 Hs1) as (hm & Hchm & _ & Hsm & Hpm).
    destruct (invoke_fresh _ _ _ c' Hsm) as (h2' & Hinv & Hnew').
    rewrite chain_app, Hchm in Hch2.
    change (chain (VObject (Loc (p_this (places_from (length h))))) [c'] hm
              = Ok (VObject (Loc (p_this (places_from (length h)))), h2)) in Hch2.
    rewrite chain_one, Hinv in Hch2. injection Hch2 as ->.
    injection Hsame as Hcat Hkey. rewrite Hcat, Hkey, Hpath2 in Hnew'.
    injection Hnew' as ->.
    pose proof (seeder_grows _ _ _ _ _ Hs1 Hsm Hpm) as Hle.
    destruct Hrec1 as (Hr & _). apply lookup_lt_Some in Hr. lia. }
  exists (VObject (Loc (p_this (places_from (length h))))), h0, h1, r, h2, r'.
  split_and!; [done | done | | done | done | | done | done | ].
  - by rewrite (get_path_via _ _ _ _ _ (builder_category _ _ _ c Hs1)).
  - apply (deep_record _ _ (key c) _ 0).
    eapply record_at_keep; [|exact Hrec1]. intros o. by rewrite Hkeep.
  - by apply (deep_record _ _ (key c) _ 0).
Qed.

(** Every commit makes a new object and copies nothing.  Two
    [transact()] calls on one builder, whatever is added in between,
    return two different objects, neither of them the builder, whose
    [users] are one and the same object, and whose [posts] are one and
    the same object. *)
Theorem snapshots_are_fresh h cs1 cs2 :
  ∃ b h0 h1 s1 h2 h3 s2 h4 u q,
    new_DbSeeder h = Ok (b, h0) ∧ chain b cs1 h0 = Ok (b, h1) ∧
    invoke_transact b h1 = Ok (s1, h2) ∧
    chain b cs2 h2 = Ok (b, h3) ∧
    invoke_transact b h3 = Ok (s2, h4) ∧
    s1 ≠ s2 ∧ s1 ≠ b ∧ s2 ≠ b ∧
    get_prop h4 s1 "users" = Ok (VObject (Loc u)) ∧
    get_prop h4 s2 "users" = Ok (VObject (Loc u)) ∧
    get_prop h4 s1 "posts" = Ok (VObject (Loc q)) ∧
    get_prop h4 s2 "posts" = Ok (VObject (Loc q)).
Proof.
  destruct (new_DbSeeder_spec h) as (h0 & Hnew & Hs0 & _).
  destruct (chain_spec _ _ _ cs1 Hs0) as (h1 & Hch1 & _ & Hs1 & _).
  destruct (transact_heap _ _ _ Hs1) as (o1 & Htr1 & Hs2 & Hsnap1).
  destruct (chain_spec _ _ _ cs2 Hs2) as (h3 & Hch2 & _ & Hs3 & Hpres).
  destruct (transact_heap _ _ _ Hs3) as (o2 & Htr2 & Hs4 & Hsnap2).
  pose proof (snapshot_at_preserved _ _ _ _ Hpres Hsnap1) as Hsnap1'.
  pose proof (snapshot_at_alloc _ _ o2 _ Hsnap1') as Hsnap1''.
  set (p := places_from (length h)) in *.
  exists (VObject (Loc (p_this p))), h0, h1, (VObject (Loc (length h1))),
    (h1 ++ [o1]), h3, (VObject (Loc (length h3))), (h3 ++ [o2]),
    (p_users p), (p_posts p).
  pose proof Hs1 as (ob1 & Hb1%lookup_lt_Some & _).
  pose proof Hs3 as (ob3 & Hb3%lookup_lt_Some & _).
  destruct Hsnap1' as (l1 & [= <-] & _ & _ & Hl1%lookup_lt_Some).
  split_and!; try done.
  - intros [=]. lia.
  - intros [=]. unfold p in *. simpl in *. lia.
  - intros [=]. unfold p in *. simpl in *. lia.
  - exact (snapshot_users _ _ _ _ Hs4 Hsnap1'').
  - exact (snapshot_users _ _ _ _ Hs4 Hsnap2).
  - exact (snapshot_posts _ _ _ _ Hs4 Hsnap1'').
  - exact (snapshot_posts _ _ _ _ Hs4 Hsnap2).
Qed.

End seeder_more.

(** ** Properties of the prefix removal *)

Section maps_prefix.
Import JS MapsPrefix.
Implicit Types (h : heap) (l r : loc) (o : object) (k : string) (v : value).

#[local] Arguments set_prop : simpl never.
#[local] Arguments get_prop : simpl never.

Lemma body_target obj newObj key h :
  body obj newObj key h =
    (v ← get_prop h obj key; set_prop h newObj (target key) v).
Proof. unfold body, target, startsWith. by destruct (String.prefix "maps:" key). Qed.

Lemma update_last h o o' :
  <[length h := o']> (h ++ [o]) = h ++ [o'].
Proof. rewrite insert_app_r_alt by lia. by rewrite Nat.sub_diag. Qed.

(** One assignment to the object under construction. *)
Lemma set_prop_new h (m : gmap string value) k v :
  m !! "__proto__" = None →
  (k = "__proto__" → ignored_as_prototype v) →
  set_prop (h ++ [literal m]) (VObject (Loc (length h))) k v =
    Ok (h ++ [literal (if decide (k = "__proto__") then m else <[k := v]> m)]).
Proof.
  intros Hm Hv.
  assert ((h ++ [literal m]) !! length h = Some (literal m)) as Hnew
    by by apply list_lookup_middle.
  unfold set_prop.
  destruct (decide (k = "__proto__")) as [->|Hk].
  - rewrite (set_walk_next _ _ _ _ _ _ _ Hnew Hm). simpl prototype.
    rewrite set_walk_object_prototype. simpl.
    specialize (Hv eq_refl). by destruct v.
  - destruct (m !! k) as [v'|] eqn:Hmk.
    + rewrite (set_walk_own _ _ _ _ _ _ _ _ Hnew Hmk).
      rewrite (define_own_ok _ _ _ _ _ Hnew). simpl. by rewrite update_last.
    + rewrite (set_walk_next _ _ _ _ _ _ _ Hnew Hmk). simpl prototype.
      rewrite set_walk_object_prototype, decide_False by done.
      rewrite (define_own_ok _ _ _ _ _ Hnew). simpl. by rewrite update_last.
Qed.

Lemma copy_key_no_proto o m key :
  m !! "__proto__" = None → copy_key o m key !! "__proto__" = None.
Proof.
  intros Hm. unfold copy_key. case_decide; [done|].
  destruct (own o !! key); [|done]. by rewrite lookup_insert_ne.
Qed.

(** The loop. *)
Lemma for_in_copies h l o keys (m : gmap string value) :
  h !! l = Some o → m !! "__proto__" = None →
  (∀ k, k ∈ keys → is_Some (own o !! k)) →
  (∀ k v, k ∈ keys → target k = "__proto__" → own o !! k = Some v →
          ignored_as_prototype v) →
  for_in keys (body (VObject (Loc l)) (VObject (Loc (length h))))
         (h ++ [literal m])
    = Ok (h ++ [literal (foldl (copy_key o) m keys)]).
Proof.
  intros Hl. revert m. induction keys as [|key keys IH]; intros m Hm Hkeys Hproto.
  - done.
  - destruct (Hkeys key) as [v Hv]; [by left|].
    simpl. rewrite body_target.
    rewrite (get_prop_own _ _ _ _ _ (alloc_keeps _ _ _ _ Hl) Hv). simpl.
    rewrite set_prop_new; [|done|].
    + simpl. assert ((if decide (target key = "__proto__") then m
                       else <[target key := v]> m) = copy_key o m key) as ->.
      { unfold copy_key. by rewrite Hv. }
      apply IH.
      * by apply copy_key_no_proto.
      * intros k Hk. apply Hkeys. by right.
      * intros k v' Hk. apply Hproto. by right.
    + intros Ht. eapply Hproto; [by left | done | done].
Qed.

Lemma remove_spec h obj keys o :
  enumerates h obj keys o →
  (∀ k v, k ∈ keys → target k = "__proto__" → own o !! k = Some v →
          ignored_as_prototype v) →
  removeMapsPrefixFromObj obj keys h
    = Ok (VObject (Loc (length h)), h ++ [literal (copied o keys)]).
Proof.
  intros (l & -> & Hl & _ & _ & Hkeys) Hproto.
  unfold removeMapsPrefixFromObj, alloc.
  rewrite (for_in_copies _ _ _ _ _ Hl); [done | done | | done].
  intros k Hk. by apply Hkeys.
Qed.


(** *** Keys and targets *)

Lemma target_prefixed s : target ("maps:" +:+ s) = s.
Proof. by destruct s. Qed.

Lemma prefix_app (p s : string) :
  String.prefix p s = true → ∃ t, s = p +:+ t.
Proof.
  revert s. induction p as [|a p IH]; intros s Hp.
  - by exists s.
  - destruct s as [|b s]; [done|]. simpl in Hp.
    destruct (Ascii.ascii_dec a b) as [->|]; [|done].
    destruct (IH _ Hp) as [t ->]. by exists t.
Qed.

Lemma substring_app (p t : string) : substring (String.length p) (p +:+ t) = t.
Proof. induction p as [|a p IH]; [by destruct t | done]. Qed.

(** The keys stored under [t] are [t] itself, when it has no prefix,
    and [maps:t]. *)
Lemma target_inv k t :
  target k = t → k = "maps:" +:+ t ∨ (k = t ∧ String.prefix "maps:" t = false).
Proof.
  unfold target. destruct (String.prefix "maps:" k) eqn:Hp.
  - destruct (prefix_app _ _ Hp) as [t' ->]. intros <-. left.
    by f_equal.
  - intros <-. by right.
Qed.

Lemma copy_key_other o m key k' :
  target key ≠ k' → copy_key o m key !! k' = m !! k'.
Proof.
  intros Hne. unfold copy_key. case_decide; [done|].
  destruct (own o !! key); [|done]. by rewrite lookup_insert_ne.
Qed.

Lemma foldl_copy_other o m keys k' :
  k' ∉ target <$> keys → foldl (copy_key o) m keys !! k' = m !! k'.
Proof.
  revert m. induction keys as [|key keys IH]; intros m Hnot; [done|].
  rewrite fmap_cons, not_elem_of_cons in Hnot. destruct Hnot as [Hne Hnot].
  simpl. rewrite IH by done. by apply copy_key_other.
Qed.

(** The value stored under a target is that of the key visited last. *)
Lemma copied_last o ks1 k ks2 v :
  own o !! k = Some v → target k ≠ "__proto__" →
  target k ∉ target <$> ks2 →
  copied o (ks1 ++ k :: ks2) !! target k = Some v.
Proof.
  intros Hv Hne Hlater. unfold copied. rewrite foldl_app. simpl.
  rewrite foldl_copy_other by done.
  unfold copy_key at 1. rewrite decide_False, Hv by done.
  by rewrite lookup_insert_eq.
Qed.

Lemma copied_lookup o keys k' v :
  copied o keys !! k' = Some v →
  k' ≠ "__proto__" ∧ ∃ k, k ∈ keys ∧ target k = k' ∧ own o !! k = Some v.
Proof.
  unfold copied. induction keys as [|key keys IH] using rev_ind.
  - simpl. by rewrite lookup_empty.
  - rewrite foldl_app. simpl. unfold copy_key at 1.
    case_decide as Ht.
    + intros Hk. destruct (IH Hk) as (? & k & ? & ? & ?).
      split; [done|]. exists k. split_and!; [|done|done].
      apply elem_of_app. by left.
    + destruct (own o !! key) as [v'|] eqn:Hv'.
      * destruct (decide (target key = k')) as [<-|Hne].
        -- rewrite lookup_insert_eq. intros [= ->]. split; [done|].
           exists key. split_and!; [|done|done].
           apply elem_of_app. right. by left.
        -- rewrite lookup_insert_ne by done.
           intros Hk. destruct (IH Hk) as (? & k & ? & ? & ?).
           split; [done|]. exists k. split_and!; [|done|done].
           apply elem_of_app. by left.
      * intros Hk. destruct (IH Hk) as (? & k & ? & ? & ?).
        split; [done|]. exists k. split_and!; [|done|done].
        apply elem_of_app. by left.
Qed.

Lemma no_proto_target (keys : list string) o :
  "__proto__" ∉ target <$> keys →
  ∀ k v, k ∈ keys → target k = "__proto__" → own o !! k = Some v →
         ignored_as_prototype v.
Proof.
  intros Hnot k v Hk Ht. destruct Hnot. rewrite <- Ht.
  by apply list_elem_of_fmap_2.
Qed.


Lemma copied_dom o keys k' :
  (∀ k, k ∈ keys → is_Some (own o !! k)) →
  "__proto__" ∉ target <$> keys →
  is_Some (copied o keys !! k') ↔ k' ∈ target <$> keys.
Proof.
  intros Hkeys Hnot. split.
  - intros [v Hv]. destruct (copied_lookup _ _ _ _ Hv) as (_ & k & Hk & <- & _).
    by apply list_elem_of_fmap_2.
  - intros (k & -> & Hk)%list_elem_of_fmap.
    revert Hk. unfold copied. induction keys as [|key keys IH] using rev_ind.
    + by intros ?%elem_of_nil.
    + rewrite fmap_app, not_elem_of_app in Hnot. destruct Hnot as [Hnot Hkey].
      rewrite foldl_app. simpl. unfold copy_key at 1.
      destruct (Hkeys key) as [v Hv]; [apply elem_of_app; right; by left|].
      rewrite decide_False, Hv.
      2:{ intros Heq. apply Hkey. rewrite <- Heq. by left. }
      destruct (decide (target key = target k)) as [->|Hne].
      * rewrite lookup_insert_eq. eauto.
      * rewrite lookup_insert_ne by done. intros Hin.
        apply IH; [|done|].
        -- intros k0 Hk0. apply Hkeys, elem_of_app. by left.
        -- apply elem_of_app in Hin as [?|Hin]; [done|].
           apply list_elem_of_singleton in Hin. congruence.
Qed.

Lemma copied_at o ks1 k ks2 v t :
  target k = t → own o !! k = Some v → t ≠ "__proto__" →
  t ∉ target <$> ks2 →
  copied o (ks1 ++ k :: ks2) !! t = Some v.
Proof. intros <-. apply copied_last. Qed.

Lemma read_result h (m : gmap string value) k v :
  m !! k = Some v →
  get_prop (h ++ [literal m]) (VObject (Loc (length h))) k = Ok v.
Proof.
  intros Hk. eapply get_prop_own; [by apply list_lookup_middle | done].
Qed.

(** A key that starts with [maps:] loses exactly that prefix: when
    [obj] has the key [maps:s], and not also the key [s], the result
    holds under [s] the value that [obj] holds under [maps:s]. *)
Theorem prefixed_key_is_stripped h obj keys o s v :
  enumerates h obj keys o →
  "__proto__" ∉ target <$> keys →
  own o !! ("maps:" +:+ s) = Some v → own o !! s = None →
  ∃ r h', removeMapsPrefixFromObj obj keys h = Ok (VObject (Loc r), h') ∧
          get_prop h' (VObject (Loc r)) s = Ok v.
Proof.
  intros Henum Hnot Hv Hs.
  rewrite (remove_spec _ _ _ _ Henum) by by apply no_proto_target.
  destruct Henum as (l & -> & Hl & _ & Hnd & Hkeys).
  assert ("maps:" +:+ s ∈ keys) as Hin by (apply Hkeys; eauto).
  apply list_elem_of_split in Hin as (ks1 & ks2 & ->).
  eexists _, _. split; [done|]. apply read_result.
  apply copied_at; [apply target_prefixed | done | |].
  - intros ->. apply Hnot.
    rewrite fmap_app, fmap_cons, target_prefixed. apply elem_of_app. right. by left.
  - intros (k & Hk & Hin)%list_elem_of_fmap.
    apply NoDup_app in Hnd as (_ & _ & Hnd2). apply NoDup_cons in Hnd2 as [Hnotin _].
    symmetry in Hk. destruct (target_inv _ _ Hk) as [->|[-> _]]; [done|].
    assert (is_Some (own o !! s)) as [? ?]; [|congruence].
    apply Hkeys. apply elem_of_app. right. by right.
Qed.

(** A key that does not start with [maps:] is kept: when [obj] has the
    key [k], and not also the key [maps:k], the result holds under [k]
    the value that [obj] holds under [k]. *)
Theorem plain_key_is_kept h obj keys o k v :
  enumerates h obj keys o →
  "__proto__" ∉ target <$> keys →
  String.prefix "maps:" k = false →
  own o !! k = Some v → own o !! ("maps:" +:+ k) = None →
  ∃ r h', removeMapsPrefixFromObj obj keys h = Ok (VObject (Loc r), h') ∧
          get_prop h' (VObject (Loc r)) k = Ok v.
Proof.
  intros Henum Hnot Hplain Hv Hs.
  rewrite (remove_spec _ _ _ _ Henum) by by apply no_proto_target.
  destruct Henum as (l & -> & Hl & _ & Hnd & Hkeys).
  assert (target k = k) as Htk by (unfold target; by rewrite Hplain).
  assert (k ∈ keys) as Hin by (apply Hkeys; eauto).
  apply list_elem_of_split in Hin as (ks1 & ks2 & ->).
  eexists _, _. split; [done|]. apply read_result.
  apply copied_at; [done | done | |].
  - intros ->. apply Hnot.
    rewrite fmap_app, fmap_cons, Htk. apply elem_of_app. right. by left.
  - intros (k' & Hk' & Hin)%list_elem_of_fmap.
    apply NoDup_app in Hnd as (_ & _ & Hnd2). apply NoDup_cons in Hnd2 as [Hnotin _].
    symmetry in Hk'. destruct (target_inv _ _ Hk') as [->|[-> _]]; [|done].
    assert (is_Some (own o !! ("maps:" +:+ k))) as [? ?]; [|congruence].
    apply Hkeys. apply elem_of_app. right. by right.
Qed.

(** A collision.  [obj] is a plain object in which a value held under
    a key that leads to [__proto__] is a string or [undefined].  When
    [obj] has both the keys [s] and [maps:s], with [s] other than
    [__proto__], they are stored under the same key [s], and the
    result holds the value of the one that the loop visits last; the
    other value is lost. *)
Theorem colliding_keys_last_wins h obj ks1 a ks2 b ks3 o v :
  enumerates h obj (ks1 ++ a :: ks2 ++ b :: ks3) o →
  (∀ k v', k ∈ ks1 ++ a :: ks2 ++ b :: ks3 → target k = "__proto__" →
           own o !! k = Some v' → ignored_as_prototype v') →
  target a = target b → target a ≠ "__proto__" → own o !! b = Some v →
  ∃ r h',
    removeMapsPrefixFromObj obj (ks1 ++ a :: ks2 ++ b :: ks3) h
      = Ok (VObject (Loc r), h') ∧
    get_prop h' (VObject (Loc r)) (target a) = Ok v.
Proof.
  intros Henum Hproto Hsame Hne Hv.
  rewrite (remove_spec _ _ _ _ Henum) by done.
  destruct Henum as (l & -> & Hl & _ & Hnd & Hkeys).
  eexists _, _. split; [done|]. apply read_result.
  rewrite Hsame.
  rewrite (app_comm_cons ks2), app_assoc.
  rewrite (app_comm_cons ks2), app_assoc in Hnd.
  apply copied_last; [done | by rewrite <- Hsame |].
  - intros (k & Hk & Hin)%list_elem_of_fmap.
    apply NoDup_app in Hnd as (Hnd1 & Hdisj & Hnd2).
    apply NoDup_cons in Hnd2 as [Hb _].
    assert (a ≠ b) as Hab.
    { intros ->. apply (Hdisj b); [|by left].
      apply elem_of_app. right. by left. }
    assert (k ≠ a) as Hka.
    { intros ->. apply (Hdisj a); [|by right].
      apply elem_of_app. right. by left. }
    assert (k ≠ b) as Hkb by (by intros ->).
    symmetry in Hk.
    destruct (target_inv _ _ Hk) as [->|[-> Hp1]];
      destruct (target_inv _ _ Hsame) as [->|[-> Hp2]];
      destruct (target_inv b _ eq_refl) as [Hb'|[Hb' Hp3]]; congruence.
Qed.

(** The keys of the result are exactly the keys of [obj] without the
    prefix, and the result is a plain object. *)
Theorem result_keys h obj keys o :
  enumerates h obj keys o →
  "__proto__" ∉ target <$> keys →
  ∃ r h' m,
    removeMapsPrefixFromObj obj keys h = Ok (VObject (Loc r), h') ∧
    h' !! r = Some (literal m) ∧
    ∀ k', is_Some (m !! k') ↔ ∃ k, is_Some (own o !! k) ∧ target k = k'.
Proof.
  intros Henum Hnot.
  rewrite (remove_spec _ _ _ _ Henum) by by apply no_proto_target.
  destruct Henum as (l & -> & Hl & _ & Hnd & Hkeys).
  eexists _, _, _. split_and!; [done | by apply list_lookup_middle |].
  intros k'. rewrite copied_dom; [|intros k Hk; by apply Hkeys|done].
  rewrite list_elem_of_fmap. split.
  - intros (k & -> & Hk). exists k. split; [by apply Hkeys | done].
  - intros (k & Hk & <-). exists k. split; [done | by apply Hkeys].
Qed.

(** The argument is not touched and nothing is cloned.  For a plain
    object [obj] in which a value held under a key that leads to
    [__proto__] is a string or [undefined]: the result is one new
    object, different from [obj]; the heap grows by that one object;
    and every object that existed, [obj] included, stays as it was. *)
Theorem argument_untouched h obj keys o :
  enumerates h obj keys o →
  (∀ k v, k ∈ keys → target k = "__proto__" → own o !! k = Some v →
          ignored_as_prototype v) →
  ∃ r h',
    removeMapsPrefixFromObj obj keys h = Ok (VObject (Loc r), h') ∧
    h !! r = None ∧ obj ≠ VObject (Loc r) ∧
    length h' = S (length h) ∧
    ∀ l o', h !! l = Some o' → h' !! l = Some o'.
Proof.
  intros Henum Hproto. rewrite (remove_spec _ _ _ _ Henum) by done.
  destruct Henum as (l & -> & Hl & _).
  eexists _, _. split_and!; [done | | | | ].
  - by apply lookup_ge_None.
  - intros [= ->]. apply lookup_lt_Some in Hl. lia.
  - rewrite length_app. simpl. lia.
  - intros l' o'. apply alloc_keeps.
Qed.

(** The key [__proto__].  A string (or [undefined]) that [obj] holds
    under [__proto__] or [maps:__proto__] is lost: the assignment goes
    to the setter of [Object.prototype], which ignores such a value.
    The result has no own property [__proto__], and reading it yields
    [Object.prototype]. *)
Theorem proto_key_is_dropped h obj keys o :
  enumerates h obj keys o →
  (∀ k v, k ∈ keys → target k = "__proto__" → own o !! k = Some v →
          ignored_as_prototype v) →
  ∃ r h' m,
    removeMapsPrefixFromObj obj keys h = Ok (VObject (Loc r), h') ∧
    h' !! r = Some (literal m) ∧ m !! "__proto__" = None ∧
    get_prop h' (VObject (Loc r)) "__proto__" = Ok (VObject object_prototype).
Proof.
  intros Henum Hproto. rewrite (remove_spec _ _ _ _ Henum) by done.
  assert (copied o keys !! "__proto__" = None) as Hnone.
  { apply eq_None_not_Some. intros [v Hv].
    by destruct (copied_lookup _ _ _ _ Hv) as [? _]. }
  assert ((h ++ [literal (copied o keys)]) !! length h
            = Some (literal (copied o keys))) as Hnew by by apply list_lookup_middle.
  eexists _, _, _. split_and!; [done | done | done |].
  unfold get_prop. rewrite (get_walk_next _ _ _ _ _ _ Hnew Hnone).
  simpl prototype. rewrite get_walk_object_prototype.
  unfold object_prototype_get. simpl. by rewrite Hnew.
Qed.

(** An object literal is enumerated by the keys it is written with. *)
Lemma enumerates_literal h l (props : list (string * value)) :
  h !! l = Some (literal (list_to_map props)) → NoDup props.*1 →
  enumerates h (VObject (Loc l)) props.*1 (literal (list_to_map props)).
Proof.
  intros Hl Hnd. exists l. split_and!; [done | done | done | done |].
  intros k. simpl. rewrite <- not_eq_None_Some.
  rewrite <- (not_elem_of_list_to_map (M := gmap string)).
  split; [tauto|]. intros Hk. by destruct (decide (k ∈ props.*1)).
Qed.

End maps_prefix.

(** ** Properties of the smaller exercises *)

Section class_names.
Import JS CreateComponent.
Implicit Types (h : heap) (o : object).

Lemma join_two separator s t array :
  join separator (s :: t :: array) = s +:+ separator +:+ join separator (t :: array).
Proof. done. Qed.

Lemma string_app_inv_head (s t1 t2 : string) :
  s +:+ t1 = s +:+ t2 → t1 = t2.
Proof. induction s as [|a s IH]; [done|]. intros [=]. auto. Qed.

Lemma string_app_assoc (s t u : string) :
  (s +:+ t) +:+ u = s +:+ t +:+ u.
Proof.
  induction s as [|a s IH]; [done|].
  change (String a ((s +:+ t) +:+ u) = String a (s +:+ t +:+ u)).
  by rewrite IH.
Qed.

(** The two versions agree only up to one additional class.  For a
    variant that the component defines, both results begin with its
    class and a space (also when no other class follows); the first
    version then separates the other classes with spaces, the second
    with commas.  So the results are equal exactly when at most one
    other class is given. *)
Theorem versions_agree_iff h l o variant cls otherClasses :
  h !! l = Some o → own o !! variant = Some (VString cls) →
  Concat.createComponent (VObject (Loc l)) variant otherClasses h
    = Ok (cls +:+ " " +:+ join " " otherClasses) ∧
  Join.createComponent (VObject (Loc l)) variant otherClasses h
    = Ok (cls +:+ " " +:+ join "," otherClasses) ∧
  (Concat.createComponent (VObject (Loc l)) variant otherClasses h
     = Join.createComponent (VObject (Loc l)) variant otherClasses h
   ↔ (length otherClasses ≤ 1)%nat).
Proof.
  intros Hl Hv.
  assert (Concat.createComponent (VObject (Loc l)) variant otherClasses h
            = Ok (cls +:+ " " +:+ join " " otherClasses)) as H1.
  { unfold Concat.createComponent. rewrite (get_prop_own _ _ _ _ _ Hl Hv).
    simpl. by rewrite string_app_assoc. }
  assert (Join.createComponent (VObject (Loc l)) variant otherClasses h
            = Ok (cls +:+ " " +:+ join "," otherClasses)) as H2.
  { unfold Join.createComponent. by rewrite (get_prop_own _ _ _ _ _ Hl Hv). }
  split_and!; [done | done |]. rewrite H1, H2. split.
  - intros [= Heq]. apply string_app_inv_head in Heq.
    destruct otherClasses as [|s [|t array]]; simpl; [lia | lia |].
    exfalso. apply string_app_inv_head in Heq. rewrite !join_two in Heq.
    apply string_app_inv_head in Heq. discriminate.
  - intros Hlen. destruct otherClasses as [|s [|t array]]; [done | done |].
    simpl in Hlen. lia.
Qed.

(** A variant that the component does not define.  Neither version
    fails: the first writes the text [undefined] where the class
    should be, the second leaves the place empty. *)
Theorem undefined_variant h l o variant otherClasses :
  h !! l = Some o → prototype o = Some object_prototype →
  own o !! variant = None →
  variant ≠ "__proto__" → variant ∉ object_prototype_members →
  Concat.createComponent (VObject (Loc l)) variant otherClasses h
    = Ok ("undefined " +:+ join " " otherClasses) ∧
  Join.createComponent (VObject (Loc l)) variant otherClasses h
    = Ok (" " +:+ join "," otherClasses).
Proof.
  intros Hl Hp Hv Hne Hmem.
  assert (get_prop h (VObject (Loc l)) variant = Ok VUndefined) as Hget.
  { unfold get_prop. rewrite (get_walk_next _ _ _ _ _ _ Hl Hv), Hp.
    rewrite get_walk_object_prototype. unfold object_prototype_get.
    by rewrite !decide_False by done. }
  unfold Concat.createComponent, Join.createComponent. by rewrite Hget.
Qed.

End class_names.

Section access.
Import RoleBasedAccess.

Lemma includes_elem array searchElement :
  includes array searchElement = true ↔ searchElement ∈ array.
Proof.
  induction array as [|s array IH]; simpl.
  - split; [done | by intros ?%elem_of_nil].
  - rewrite orb_true_iff, IH, elem_of_cons, String.eqb_eq.
    split; (intros [?|?]; [by left | by right]).
Qed.

(** The roles are nested: whatever an anonymous visitor may do, a user
    may do, and whatever a user may do, an admin may do.  Every role
    may view. *)
Theorem roles_are_nested action :
  (canUserAccess anonymous action = true → canUserAccess user action = true) ∧
  (canUserAccess user action = true → canUserAccess admin action = true) ∧
  ∀ role, canUserAccess role "view" = true.
Proof.
  unfold canUserAccess. rewrite !includes_elem. simpl. split_and!.
  - intros ->%list_elem_of_singleton. apply elem_of_cons. right. by left.
  - rewrite !elem_of_cons. intros [->|[->|?%elem_of_nil]]; [|do 4 right; by left|done].
    right. by left.
  - by intros [].
Qed.

(** What is reserved: creating, deleting and updating others is for
    the admin alone, and an anonymous visitor may do nothing but
    view. *)
Theorem reserved_actions role action :
  canUserAccess role action = true →
  (action ∈ ["create"; "update-any"; "delete"] → role = admin) ∧
  (role = anonymous → action = "view").
Proof.
  unfold canUserAccess. rewrite includes_elem.
  destruct role; simpl; rewrite !elem_of_cons, elem_of_nil;
    intros Hin; split; try done.
  - intros Hres. exfalso.
    destruct Hin as [->|[->|[]]]; by destruct Hres as [?|[?|[?|[]]]].
  - intros Hres. exfalso.
    destruct Hin as [->|[]]; by destruct Hres as [?|[?|[?|[]]]].
  - intros _. by destruct Hin as [->|[]].
Qed.

End access.

Section email.
Import ValidEmail.

Lemma prefix_String c c' (s1 s2 : string) :
  String.prefix (String c s1) (String c' s2)
    = if Ascii.ascii_dec c c' then String.prefix s1 s2 else false.
Proof. done. Qed.

Lemma prefix_at (s : string) :
  String.prefix "@" s = true ↔ ∃ b, s = "@" +:+ b.
Proof.
  destruct s as [|a s].
  - split; [done | by intros [b ?]].
  - rewrite prefix_String. destruct (Ascii.ascii_dec _ a) as [<-|Hne].
    + split; [|by destruct s]. intros _. by exists s.
    + split; [done|]. intros [b [= ? ?]]. done.
Qed.

Lemma includes_at (s : string) :
  includes s "@" = true ↔ ∃ a b, s = a +:+ "@" +:+ b.
Proof.
  induction s as [|c s IH].
  - simpl. split; [done|]. intros ([|? ?] & b & ?); done.
  - change (includes (String c s) "@")
      with (String.prefix "@" (String c s) || includes s "@").
    rewrite orb_true_iff, prefix_at, IH. split.
    + intros [[b Hb]|(a & b & ->)].
      * by exists "", b.
      * by exists (String c a), b.
    + intros ([|c' a] & b & Heq).
      * left. by exists b.
      * right. injection Heq as -> ->. by exists a, b.
Qed.

(** A submission is accepted exactly when the address contains an
    [@] somewhere; nothing else is asked of it.  Any other address is
    rejected with the message [Email is invalid]. *)
Theorem submission_accepted_iff values :
  ((∃ a b, email values = a +:+ "@" +:+ b) ∧ onSubmit values = Fulfilled tt) ∨
  ((∀ a b, email values ≠ a +:+ "@" +:+ b) ∧
   onSubmit values = Rejected "Email is invalid").
Proof.
  unfold onSubmit, isValidEmail.
  destruct (includes (email values) "@") eqn:Hinc; simpl.
  - left. split; [by apply includes_at | done].
  - right. split; [|done]. intros a b Heq.
    assert (includes (email values) "@" = true) as Ht
      by (apply includes_at; eauto).
    congruence.
Qed.

End email.

(** ** Instances of the further properties *)

Section more_instances.
Import JS DbSeeder Model MapsPrefix CreateComponent RoleBasedAccess.

(** An identifier that was never added, looked up in both
    collections. *)
Lemma absent_identifier_witness :
  "zoe" ≠ "__proto__" ∧
  ∃ s g, seed [AddUser "matt" {| name := "Matt" |}] [] = Ok (s, g) ∧
         get_path g s "users" "zoe" = Ok VUndefined ∧
         get_path g s "posts" "zoe" = Ok VUndefined.
Proof.
  assert ("zoe" ≠ "__proto__") as Hk by done.
  split; [exact Hk|].
  destruct (absent_identifier [] [AddUser "matt" {| name := "Matt" |}] "zoe" Hk)
    as (s & g & Hseed & Hu & Hp).
  exists s, g. split_and!; [exact Hseed | |].
  - apply Hu; apply (bool_decide_unpack _); vm_compute; exact I.
  - apply Hp; apply (bool_decide_unpack _); vm_compute; exact I.
Defined.

(** A user added under [__proto__] after the user [matt]: its name
    shows as [snapshot.users.name]. *)
Lemma proto_identifier_inherited_witness :
  key (AddUser "__proto__" {| name := "Eve" |}) = "__proto__" ∧
  expected (AddUser "__proto__" {| name := "Eve" |}) !! "name" = Some "Eve" ∧
  ((category (AddUser "__proto__" {| name := "Eve" |}), "name")
     ∉ entry <$> [AddUser "matt" {| name := "Matt" |}]) ∧
  ∃ s g s0 g0,
    seed ([AddUser "matt" {| name := "Matt" |}]
            ++ [AddUser "__proto__" {| name := "Eve" |}]) [] = Ok (s, g) ∧
    seed [AddUser "matt" {| name := "Matt" |}] [] = Ok (s0, g0) ∧
    deep 3 g s = deep 3 g0 s0 ∧
    has_entry g s (AddUser "__proto__" {| name := "Eve" |}) ∧
    get_path g s (category (AddUser "__proto__" {| name := "Eve" |})) "name"
      = Ok (VString "Eve").
Proof.
  assert (key (AddUser "__proto__" {| name := "Eve" |}) = "__proto__") as H1
    by reflexivity.
  assert (expected (AddUser "__proto__" {| name := "Eve" |}) !! "name"
            = Some "Eve") as H2 by reflexivity.
  assert ((category (AddUser "__proto__" {| name := "Eve" |}), "name")
            ∉ entry <$> [AddUser "matt" {| name := "Matt" |}]) as H3.
  { apply (bool_decide_unpack _). vm_compute. exact I. }
  split_and!; [exact H1 | exact H2 | exact H3 |].
  exact (proto_identifier_inherited [] _ _ _ _ H1 H2 H3).
Defined.

(** A post whose author was never added. *)
Lemma author_not_checked_witness :
  (("users", authorId {| title := "Post"; authorId := "ghost" |})
     ∉ entry <$> [AddUser "matt" {| name := "Matt" |}]) ∧
  ∃ s g r,
    seed ([AddUser "matt" {| name := "Matt" |}]
            ++ [AddPost "post1" {| title := "Post"; authorId := "ghost" |}]) []
      = Ok (s, g) ∧
    get_path g s "posts" "post1" = Ok (VObject (Loc r)) ∧
    get_prop g (VObject (Loc r)) "authorId"
      = Ok (VString (authorId {| title := "Post"; authorId := "ghost" |})) ∧
    ∀ r', get_path g s "users"
            (authorId {| title := "Post"; authorId := "ghost" |})
          ≠ Ok (VObject (Loc r')).
Proof.
  assert (("users", authorId {| title := "Post"; authorId := "ghost" |})
            ∉ entry <$> [AddUser "matt" {| name := "Matt" |}]) as Hnot.
  { apply (bool_decide_unpack _). vm_compute. exact I. }
  split; [exact Hnot|].
  exact (author_not_checked [] _ "post1" _ Hnot).
Defined.

(** The user [a] written twice on one builder. *)
Lemma record_never_updated_witness :
  same_entry (AddUser "a" {| name := "y" |}) (AddUser "a" {| name := "x" |}) ∧
  ∃ b h0 h1 r h2 r',
    new_DbSeeder [] = Ok (b, h0) ∧
    chain b ([] ++ [AddUser "a" {| name := "x" |}]) h0 = Ok (b, h1) ∧
    get_path h1 b (category (AddUser "a" {| name := "x" |}))
      (key (AddUser "a" {| name := "x" |})) = Ok (VObject (Loc r)) ∧
    chain b ([] ++ [AddUser "a" {| name := "y" |}]) h1 = Ok (b, h2) ∧
    h2 !! r = h1 !! r ∧
    deep 1 h2 (VObject (Loc r))
      = record_tree (expected (AddUser "a" {| name := "x" |})) ∧
    get_path h2 b (category (AddUser "a" {| name := "x" |}))
      (key (AddUser "a" {| name := "x" |})) = Ok (VObject (Loc r')) ∧
    r' ≠ r ∧
    deep 1 h2 (VObject (Loc r'))
      = record_tree (expected (AddUser "a" {| name := "y" |})).
Proof.
  assert (same_entry (AddUser "a" {| name := "y" |})
            (AddUser "a" {| name := "x" |})) as Hsame by reflexivity.
  split; [exact Hsame|].
  exact (record_never_updated [] [] _ [] _ Hsame).
Defined.

(** The object of the exercise: two prefixed keys and a plain one. *)
Lemma prefixed_key_is_stripped_witness :
  enumerates [literal (list_to_map apiData)] (VObject (Loc 0)) apiData.*1
    (literal (list_to_map apiData)) ∧
  ("__proto__" ∉ target <$> apiData.*1) ∧
  own (literal (list_to_map apiData)) !! ("maps:" +:+ "longitude")
    = Some (VString "1") ∧
  own (literal (list_to_map apiData)) !! "longitude" = None ∧
  ∃ r h',
    removeMapsPrefixFromObj (VObject (Loc 0)) apiData.*1
      [literal (list_to_map apiData)] = Ok (VObject (Loc r), h') ∧
    get_prop h' (VObject (Loc r)) "longitude" = Ok (VString "1").
Proof.
  assert (enumerates [literal (list_to_map apiData)] (VObject (Loc 0))
            apiData.*1 (literal (list_to_map apiData))) as H1.
  { apply enumerates_literal; [reflexivity|].
    apply (bool_decide_unpack _). vm_compute. exact I. }
  assert ("__proto__" ∉ target <$> apiData.*1) as H2.
  { apply (bool_decide_unpack _). vm_compute. exact I. }
  assert (own (literal (list_to_map apiData)) !! ("maps:" +:+ "longitude")
            = Some (VString "1")) as H3 by (vm_compute; reflexivity).
  assert (own (literal (list_to_map apiData)) !! "longitude" = None) as H4
    by (vm_compute; reflexivity).
  split_and!; [exact H1 | exact H2 | exact H3 | exact H4 |].
  exact (prefixed_key_is_stripped _ _ _ _ _ _ H1 H2 H3 H4).
Defined.

Lemma plain_key_is_kept_witness :
  enumerates [literal (list_to_map apiData)] (VObject (Loc 0)) apiData.*1
    (literal (list_to_map apiData)) ∧
  ("__proto__" ∉ target <$> apiData.*1) ∧
  String.prefix "maps:" "name" = false ∧
  own (literal (list_to_map apiData)) !! "name" = Some (VString "home") ∧
  own (literal (list_to_map apiData)) !! ("maps:" +:+ "name") = None ∧
  ∃ r h',
    removeMapsPrefixFromObj (VObject (Loc 0)) apiData.*1
      [literal (list_to_map apiData)] = Ok (VObject (Loc r), h') ∧
    get_prop h' (VObject (Loc r)) "name" = Ok (VString "home").
Proof.
  assert (enumerates [literal (list_to_map apiData)] (VObject (Loc 0))
            apiData.*1 (literal (list_to_map apiData))) as H1.
  { apply enumerates_literal; [reflexivity|].
    apply (bool_decide_unpack _). vm_compute. exact I. }
  assert ("__proto__" ∉ target <$> apiData.*1) as H2.
  { apply (bool_decide_unpack _). vm_compute. exact I. }
  assert (String.prefix "maps:" "name" = false) as H3 by reflexivity.
  assert (own (literal (list_to_map apiData)) !! "name"
            = Some (VString "home")) as H4 by (vm_compute; reflexivity).
  assert (own (literal (list_to_map apiData)) !! ("maps:" +:+ "name") = None)
    as H5 by (vm_compute; reflexivity).
  split_and!; [exact H1 | exact H2 | exact H3 | exact H4 | exact H5 |].
  exact (plain_key_is_kept _ _ _ _ _ _ H1 H2 H3 H4 H5).
Defined.

(** An object with the keys [maps:x] and [x], visited in that order:
    the value of [x] is the one that stays. *)
Lemma colliding_keys_last_wins_witness :
  enumerates [literal (list_to_map colliding)] (VObject (Loc 0))
    ([] ++ "maps:x" :: [] ++ "x" :: [])
    (literal (list_to_map colliding)) ∧
  (∀ k v', k ∈ [] ++ "maps:x" :: [] ++ "x" :: [] → target k = "__proto__" →
           own (literal (list_to_map colliding)) !! k = Some v' →
           ignored_as_prototype v') ∧
  target "maps:x" = target "x" ∧ target "maps:x" ≠ "__proto__" ∧
  own (literal (list_to_map colliding)) !! "x" = Some (VString "plain") ∧
  ∃ r h',
    removeMapsPrefixFromObj (VObject (Loc 0))
      ([] ++ "maps:x" :: [] ++ "x" :: [])
      [literal (list_to_map colliding)] = Ok (VObject (Loc r), h') ∧
    get_prop h' (VObject (Loc r)) (target "maps:x") = Ok (VString "plain").
Proof.
  assert (enumerates [literal (list_to_map colliding)] (VObject (Loc 0))
            ([] ++ "maps:x" :: [] ++ "x" :: [])
            (literal (list_to_map colliding))) as H1.
  { apply (enumerates_literal _ 0 colliding); [reflexivity|].
    apply (bool_decide_unpack _). vm_compute. exact I. }
  assert (∀ k v', k ∈ [] ++ "maps:x" :: [] ++ "x" :: [] →
                  target k = "__proto__" →
                  own (literal (list_to_map colliding)) !! k = Some v' →
                  ignored_as_prototype v') as H2.
  { apply no_proto_target. apply (bool_decide_unpack _). vm_compute. exact I. }
  assert (target "maps:x" = target "x") as H3 by reflexivity.
  assert (target "maps:x" ≠ "__proto__") as H4 by done.
  assert (own (literal (list_to_map colliding)) !! "x"
            = Some (VString "plain")) as H5 by (vm_compute; reflexivity).
  split_and!; [exact H1 | exact H2 | exact H3 | exact H4 | exact H5 |].
  exact (colliding_keys_last_wins _ _ _ _ _ _ _ _ _ H1 H2 H3 H4 H5).
Defined.

Lemma result_keys_witness :
  enumerates [literal (list_to_map apiData)] (VObject (Loc 0)) apiData.*1
    (literal (list_to_map apiData)) ∧
  ("__proto__" ∉ target <$> apiData.*1) ∧
  ∃ r h' m,
    removeMapsPrefixFromObj (VObject (Loc 0)) apiData.*1
      [literal (list_to_map apiData)] = Ok (VObject (Loc r), h') ∧
    h' !! r = Some (literal m) ∧
    ∀ k', is_Some (m !! k')
          ↔ ∃ k, is_Some (own (literal (list_to_map apiData)) !! k) ∧
                 target k = k'.
Proof.
  assert (enumerates [literal (list_to_map apiData)] (VObject (Loc 0))
            apiData.*1 (literal (list_to_map apiData))) as H1.
  { apply enumerates_literal; [reflexivity|].
    apply (bool_decide_unpack _). vm_compute. exact I. }
  assert ("__proto__" ∉ target <$> apiData.*1) as H2.
  { apply (bool_decide_unpack _). vm_compute. exact I. }
  split_and!; [exact H1 | exact H2 |].
  exact (result_keys _ _ _ _ H1 H2).
Defined.

Lemma argument_untouched_witness :
  enumerates [literal (list_to_map apiData)] (VObject (Loc 0)) apiData.*1
    (literal (list_to_map apiData)) ∧
  ∃ r h',
    removeMapsPrefixFromObj (VObject (Loc 0)) apiData.*1
      [literal (list_to_map apiData)] = Ok (VObject (Loc r), h') ∧
    [literal (list_to_map apiData)] !! r = None ∧
    VObject (Loc 0) ≠ VObject (Loc r) ∧
    length h' = S (length [literal (list_to_map apiData)]) ∧
    ∀ l o', [literal (list_to_map apiData)] !! l = Some o' → h' !! l = Some o'.
Proof.
  assert (enumerates [literal (list_to_map apiData)] (VObject (Loc 0))
            apiData.*1 (literal (list_to_map apiData))) as H1.
  { apply enumerates_literal; [reflexivity|].
    apply (bool_decide_unpack _). vm_compute. exact I. }
  assert ("__proto__" ∉ target <$> apiData.*1) as H2.
  { apply (bool_decide_unpack _). vm_compute. exact I. }
  split; [exact H1|].
  exact (argument_untouched _ _ _ _ H1 (no_proto_target _ _ H2)).
Defined.

(** An object that holds a string under [maps:__proto__]. *)
Lemma proto_key_is_dropped_witness :
  enumerates [literal (list_to_map protoData)] (VObject (Loc 0)) protoData.*1
    (literal (list_to_map protoData)) ∧
  own (literal (list_to_map protoData)) !! "maps:__proto__"
    = Some (VString "x") ∧
  ∃ r h' m,
    removeMapsPrefixFromObj (VObject (Loc 0)) protoData.*1
      [literal (list_to_map protoData)] = Ok (VObject (Loc r), h') ∧
    h' !! r = Some (literal m) ∧ m !! "__proto__" = None ∧
    get_prop h' (VObject (Loc r)) "__proto__" = Ok (VObject object_prototype).
Proof.
  assert (enumerates [literal (list_to_map protoData)] (VObject (Loc 0))
            protoData.*1 (literal (list_to_map protoData))) as H1.
  { apply enumerates_literal; [reflexivity|].
    apply (bool_decide_unpack _). vm_compute. exact I. }
  assert (∀ k v, k ∈ protoData.*1 → target k = "__proto__" →
                 own (literal (list_to_map protoData)) !! k = Some v →
                 ignored_as_prototype v) as H2.
  { intros k v Hk _. simpl in Hk.
    apply elem_of_cons in Hk as [->|Hk].
    - intros [= <-]. exact I.
    - apply list_elem_of_singleton in Hk as ->. intros [= <-]. exact I. }
  split_and!; [exact H1 | reflexivity |].
  exact (proto_key_is_dropped _ _ _ _ H1 H2).
Defined.

(** The button of the exercise with two more classes. *)
Lemma versions_agree_iff_witness :
  [literal (list_to_map buttonClasses)] !! 0
    = Some (literal (list_to_map buttonClasses)) ∧
  own (literal (list_to_map buttonClasses)) !! "primary"
    = Some (VString "bg-blue-300") ∧
  Concat.createComponent (VObject (Loc 0)) "primary" ["px-4"; "py-2"]
    [literal (list_to_map buttonClasses)]
    = Ok ("bg-blue-300" +:+ " " +:+ join " " ["px-4"; "py-2"]) ∧
  Join.createComponent (VObject (Loc 0)) "primary" ["px-4"; "py-2"]
    [literal (list_to_map buttonClasses)]
    = Ok ("bg-blue-300" +:+ " " +:+ join "," ["px-4"; "py-2"]) ∧
  (Concat.createComponent (VObject (Loc 0)) "primary" ["px-4"; "py-2"]
     [literal (list_to_map buttonClasses)]
   = Join.createComponent (VObject (Loc 0)) "primary" ["px-4"; "py-2"]
       [literal (list_to_map buttonClasses)]
   ↔ (length ["px-4"; "py-2"] ≤ 1)%nat).
Proof.
  assert ([literal (list_to_map buttonClasses)] !! 0
            = Some (literal (list_to_map buttonClasses))) as H1 by reflexivity.
  assert (own (literal (list_to_map buttonClasses)) !! "primary"
            = Some (VString "bg-blue-300")) as H2 by (vm_compute; reflexivity).
  split_and!; [exact H1 | exact H2 | ..];
    apply (versions_agree_iff _ _ _ _ _ ["px-4"; "py-2"] H1 H2).
Defined.

Lemma undefined_variant_witness :
  [literal (list_to_map buttonClasses)] !! 0
    = Some (literal (list_to_map buttonClasses)) ∧
  prototype (literal (list_to_map buttonClasses)) = Some object_prototype ∧
  own (literal (list_to_map buttonClasses)) !! "tertiary" = None ∧
  "tertiary" ≠ "__proto__" ∧ ("tertiary" ∉ object_prototype_members) ∧
  Concat.createComponent (VObject (Loc 0)) "tertiary" ["px-4"]
    [literal (list_to_map buttonClasses)]
    = Ok ("undefined " +:+ join " " ["px-4"]) ∧
  Join.createComponent (VObject (Loc 0)) "tertiary" ["px-4"]
    [literal (list_to_map buttonClasses)]
    = Ok (" " +:+ join "," ["px-4"]).
Proof.
  assert ([literal (list_to_map buttonClasses)] !! 0
            = Some (literal (list_to_map buttonClasses))) as H1 by reflexivity.
  assert (prototype (literal (list_to_map buttonClasses))
            = Some object_prototype) as H2 by reflexivity.
  assert (own (literal (list_to_map buttonClasses)) !! "tertiary" = None) as H3
    by (vm_compute; reflexivity).
  assert ("tertiary" ≠ "__proto__") as H4 by done.
  assert ("tertiary" ∉ object_prototype_members) as H5.
  { apply (bool_decide_unpack _). vm_compute. exact I. }
  split_and!; [exact H1 | exact H2 | exact H3 | exact H4 | exact H5 | ..];
    apply (undefined_variant _ _ _ _ ["px-4"] H1 H2 H3 H4 H5).
Defined.

Lemma reserved_actions_witness :
  canUserAccess admin "delete" = true ∧
  ("delete" ∈ ["create"; "update-any"; "delete"] → admin = admin) ∧
  (admin = anonymous → "delete" = "view").
Proof.
  assert (canUserAccess admin "delete" = true) as H by reflexivity.
  split; [exact H|]. exact (reserved_actions admin "delete" H).
Defined.

End more_instances.
